(** * app.js: input sanitizer, restricted evaluator and array transformer

  A shallow embedding of [src/app.js] and of the parts of the JavaScript
  run time its three exported functions rely on, followed by the
  properties of [processInput], [safeEval] and [processData].

  - [JS] holds the run time: values, [typeof], truthiness, strings as
    sequences of UTF-16 code units, the two regular expressions of the
    program, IEEE 754 binary64 numbers (the Standard Library's
    [SpecFloat]), promises, micro-tasks and timers.
  - [Engine] holds the part of the language reached through
    [new Function('return ' + expression)()]: lexer, parser and evaluator
    of a fragment of ECMAScript.
  - [App] holds the program itself: [config], [processInput], [safeEval]
    and [processData].
  - [Trace] and [Spec] hold the vocabulary of the statements: the worlds
    met along a call of [processData], and the notions the specification
    uses (allowed pattern, trimmed, upper case, sums and terms).
  - [More] holds the vocabulary of the further properties (malformed
    sums, integer literals, timers), and [Driver] the routine [main] with
    the lines it logs.

  Failures are told apart by the message of the [Error] thrown. *)

From Stdlib Require Import ZArith List String Ascii Bool Lia.
From Stdlib Require Import Floats.SpecFloat.
Import ListNotations.
Local Open Scope Z_scope.

Set Warnings "-register-all".

(* ===================================================================== *)
(** * The run time *)
(* ===================================================================== *)

Module JS.

(** ** Strings: sequences of UTF-16 code units *)

Definition code_unit := Z.
Definition js_string := list code_unit.

(** A source literal made of ASCII characters, as code units. *)
Definition lit (s : string) : js_string :=
  map (fun a => Z.of_N (N_of_ascii a)) (list_ascii_of_string s).

(** ** Numbers: binary64 *)

Definition number := spec_float.
Definition prec := 53.
Definition emax := 1024.

Definition num_mul : number -> number -> number := SFmul prec emax.
Definition num_div : number -> number -> number := SFdiv prec emax.
Definition num_add : number -> number -> number := SFadd prec emax.
Definition num_sub : number -> number -> number := SFsub prec emax.
Definition num_neg : number -> number := SFopp.

(** The number nearest to an integer (ties to even). *)
Definition of_Z (z : Z) : number := binary_normalize prec emax z 0 false.

(** ** Errors and completions *)

(** [Error msg] is [new Error(msg)]; the others are the engine's own
    exceptions. *)
Inductive error :=
| Error (message : string)
| SyntaxError
| TypeError
| RangeError.

Inductive completion (A : Type) :=
| Normal (a : A)
| Throw (e : error).
Arguments Normal {A} a.
Arguments Throw {A} e.

(** ** Values *)

Inductive value :=
| VUndefined
| VNull
| VBool (b : bool)
| VNumber (n : number)
| VBigInt (z : Z)
| VString (s : js_string)
| VSymbol
| VArray (slots : list (option value))  (* [None] is a hole *)
| VFunction
| VObject.                               (* any other object *)

Definition typeof (v : value) : string :=
  match v with
  | VUndefined => "undefined"
  | VNull => "object"
  | VBool _ => "boolean"
  | VNumber _ => "number"
  | VBigInt _ => "bigint"
  | VString _ => "string"
  | VSymbol => "symbol"
  | VArray _ => "object"
  | VFunction => "function"
  | VObject => "object"
  end.

(** ToBoolean *)
Definition truthy (v : value) : bool :=
  match v with
  | VUndefined | VNull => false
  | VBool b => b
  | VNumber (S754_zero _) | VNumber S754_nan => false
  | VNumber _ => true
  | VBigInt z => negb (z =? 0)
  | VString s => match s with [] => false | _ => true end
  | VSymbol | VArray _ | VFunction | VObject => true
  end.

Definition Array_isArray (v : value) : bool :=
  match v with VArray _ => true | _ => false end.

(** The code units of a string value, its [length], and the slots of an
    array; read only after the matching type test. *)
Definition chars (v : value) : js_string :=
  match v with VString s => s | _ => [] end.

Definition str_length (s : js_string) : Z := Z.of_nat (List.length s).

Definition slots (v : value) : list (option value) :=
  match v with VArray l => l | _ => [] end.

(** ** White space, [trim] and [toUpperCase] *)

(** WhiteSpace and LineTerminator: what [\s] matches and what [trim]
    strips. *)
Definition isWhiteSpace (c : code_unit) : bool :=
  ((9 <=? c) && (c <=? 13))
  || (c =? 32) || (c =? 160) || (c =? 5760)
  || ((8192 <=? c) && (c <=? 8202))
  || (c =? 8232) || (c =? 8233) || (c =? 8239) || (c =? 8287)
  || (c =? 12288) || (c =? 65279).

Fixpoint trimStart (s : js_string) : js_string :=
  match s with
  | [] => []
  | c :: r => if isWhiteSpace c then trimStart r else s
  end.

Definition trimEnd (s : js_string) : js_string := rev (trimStart (rev s)).

Definition trim (s : js_string) : js_string := trimEnd (trimStart s).

Definition isLower (c : code_unit) : bool := (97 <=? c) && (c <=? 122).
Definition isUpper (c : code_unit) : bool := (65 <=? c) && (c <=? 90).
Definition isDigit (c : code_unit) : bool := (48 <=? c) && (c <=? 57).

(** Case mapping of the Basic Latin block.  Code units beyond it are left
    as they are: the program upper-cases only strings that passed
    [allowedChars], whose cased code units are all in [a-zA-Z]. *)
Definition upper_unit (c : code_unit) : code_unit :=
  if isLower c then c - 32 else c.

Definition toUpperCase (s : js_string) : js_string := map upper_unit s.

(** ** Regular expressions of the shape [/^[...]+$/] *)

Inductive class_atom :=
| CRange (lo hi : code_unit)   (* [lo-hi] *)
| CChar (c : code_unit)        (* a single character *)
| CSpace.                      (* [\s] *)

Definition atom_matches (a : class_atom) (c : code_unit) : bool :=
  match a with
  | CRange lo hi => (lo <=? c) && (c <=? hi)
  | CChar c' => c =? c'
  | CSpace => isWhiteSpace c
  end.

Definition class_matches (cls : list class_atom) (c : code_unit) : bool :=
  existsb (fun a => atom_matches a c) cls.

(** [/^[cls]+$/] without flags: no [lastIndex] is read or written. *)
Record regexp := AnchoredPlus { char_class : list class_atom }.

Definition RegExp_test (r : regexp) (s : js_string) : bool :=
  match s with
  | [] => false
  | _ => forallb (class_matches (char_class r)) s
  end.

(** ** [Array.prototype.map]

    The callback is called on the present elements from left to right;
    holes stay holes; the first exception ends the iteration. *)
Fixpoint Array_map (f : value -> completion value) (l : list (option value))
  : completion (list (option value)) :=
  match l with
  | [] => Normal []
  | None :: r =>
      match Array_map f r with
      | Normal r' => Normal (None :: r')
      | Throw e => Throw e
      end
  | Some v :: r =>
      match f v with
      | Throw e => Throw e
      | Normal v' =>
          match Array_map f r with
          | Normal r' => Normal (Some v' :: r')
          | Throw e => Throw e
          end
      end
  end.

(** ** Promises, micro-tasks and timers *)

Definition promise_ref := nat.

Inductive outcome :=
| Fulfilled (v : value)
| Rejected (e : error).

(** A promise: its outcome once settled, the [alreadyResolved] flag shared
    by the [resolve] and [reject] functions handed to its creator, and the
    promises waiting to take over its outcome. *)
Record promise := {
  settled : option outcome;
  alreadyResolved : bool;
  reactions : list promise_ref
}.

Inductive job :=
| ResolveThenableJob (target source : promise_ref)
| ReactionJob (target : promise_ref) (o : outcome).

(** The one closure the program hands to [setTimeout]:
    [() => reject(e)], with the [reject] of promise [p]. *)
Inductive callback :=
| RejectWith (p : promise_ref) (e : error).

Record timer := {
  timer_id : nat;
  due : Z;
  handler : callback
}.

(** The state of the event loop.  [map_cost n] is the time in milliseconds
    the engine spends in a [map] over [n] slots. *)
Record world := {
  clock : Z;
  map_cost : nat -> Z;
  heap : list promise;
  jobs : list job;
  timers : list timer;
  next_timer : nat
}.

Definition set_clock (t : Z) (w : world) : world :=
  {| clock := t; map_cost := map_cost w; heap := heap w; jobs := jobs w;
     timers := timers w; next_timer := next_timer w |}.

Definition set_heap (h : list promise) (w : world) : world :=
  {| clock := clock w; map_cost := map_cost w; heap := h; jobs := jobs w;
     timers := timers w; next_timer := next_timer w |}.

Definition set_jobs (q : list job) (w : world) : world :=
  {| clock := clock w; map_cost := map_cost w; heap := heap w; jobs := q;
     timers := timers w; next_timer := next_timer w |}.

Definition set_timers (ts : list timer) (n : nat) (w : world) : world :=
  {| clock := clock w; map_cost := map_cost w; heap := heap w; jobs := jobs w;
     timers := ts; next_timer := n |}.

(** The state monad of the run time. *)
Definition M (A : Type) := world -> A * world.

Definition ret {A} (a : A) : M A := fun w => (a, w).

Definition bind {A B} (m : M A) (k : A -> M B) : M B :=
  fun w => let (a, w') := m w in k a w'.

Declare Scope js_scope.
Delimit Scope js_scope with js.
Notation "x <- c ;; k" := (bind c (fun x => k))
  (at level 61, c at next level, right associativity) : js_scope.
Notation "c ;; k" := (bind c (fun _ => k))
  (at level 61, right associativity) : js_scope.
Local Open Scope js_scope.

(** [l.map(f)] and the time it takes. *)
Definition timed_map (f : value -> completion value) (l : list (option value))
  : M (completion (list (option value))) :=
  fun w => (Array_map f l, set_clock (clock w + map_cost w (List.length l)) w).

Definition pending : promise :=
  {| settled := None; alreadyResolved := false; reactions := [] |}.

Definition new_promise : M promise_ref :=
  fun w => (List.length (heap w), set_heap (heap w ++ [pending]) w).

Definition lookup (p : promise_ref) (w : world) : option promise :=
  nth_error (heap w) p.

Fixpoint update {A} (i : nat) (f : A -> A) (l : list A) : list A :=
  match l, i with
  | [], _ => []
  | x :: r, O => f x :: r
  | x :: r, S i' => x :: update i' f r
  end.

Definition modify (p : promise_ref) (f : promise -> promise) : M unit :=
  fun w => (tt, set_heap (update p f (heap w)) w).

Definition enqueue (js : list job) : M unit :=
  fun w => (tt, set_jobs (jobs w ++ js) w).

(** FulfillPromise and RejectPromise: a pending promise takes the outcome
    and one reaction job per waiting promise is queued; a settled promise
    is left alone. *)
Definition settle (p : promise_ref) (o : outcome) : M unit :=
  fun w =>
    match lookup p w with
    | Some {| settled := None; alreadyResolved := a; reactions := rs |} =>
        (modify p (fun _ => {| settled := Some o; alreadyResolved := a; reactions := [] |}) ;;
         enqueue (map (fun t => ReactionJob t o) rs)) w
    | _ => (tt, w)
    end.

Definition is_resolved (p : promise_ref) (w : world) : bool :=
  match lookup p w with
  | Some pr => alreadyResolved pr
  | None => true
  end.

Definition mark_resolved (p : promise_ref) : M unit :=
  modify p (fun pr => {| settled := settled pr; alreadyResolved := true;
                         reactions := reactions pr |}).

(** [resolve(v)] for a value that is not a thenable. *)
Definition resolve_fn (p : promise_ref) (v : value) : M unit :=
  fun w =>
    if is_resolved p w then (tt, w)
    else (mark_resolved p ;; settle p (Fulfilled v)) w.

(** [reject(e)] *)
Definition reject_fn (p : promise_ref) (e : error) : M unit :=
  fun w =>
    if is_resolved p w then (tt, w)
    else (mark_resolved p ;; settle p (Rejected e)) w.

(** [resolve(q)] for a promise [q]: the outcome of [q] is taken over in a
    later micro-task. *)
Definition resolve_with_promise (p q : promise_ref) : M unit :=
  fun w =>
    if is_resolved p w then (tt, w)
    else (mark_resolved p ;; enqueue [ResolveThenableJob p q]) w.

(** [new Promise(executor)]: the executor runs at once, and an exception
    it lets through rejects the promise. *)
Definition new_Promise (executor : promise_ref -> M (completion unit))
  : M promise_ref :=
  p <- new_promise ;;
  r <- executor p ;;
  match r with
  | Throw e => reject_fn p e
  | Normal _ => ret tt
  end ;;
  ret p.

(** A call of an [async function] whose body has no [await] and returns a
    promise: the call completes normally with a promise of its own; an
    exception of the body rejects that promise, a promise returned by the
    body resolves it. *)
Definition async (body : M (completion promise_ref)) : M (completion promise_ref) :=
  outer <- new_promise ;;
  r <- body ;;
  match r with
  | Throw e => reject_fn outer e
  | Normal inner => resolve_with_promise outer inner
  end ;;
  ret (Normal outer).

(** [setTimeout(cb, delay)] of Node.js: a delay below 1 or above
    2147483647 is taken as 1. *)
Definition effective_delay (delay : Z) : Z :=
  if (delay <? 1) || (2147483647 <? delay) then 1 else delay.

Definition setTimeout (cb : callback) (delay : Z) : M nat :=
  fun w =>
    (next_timer w,
     set_timers (timers w ++ [{| timer_id := next_timer w;
                                 due := clock w + effective_delay delay;
                                 handler := cb |}])
                (S (next_timer w)) w).

Definition clearTimeout (id : nat) : M unit :=
  fun w =>
    (tt, set_timers (filter (fun t => negb (Nat.eqb (timer_id t) id)) (timers w))
                    (next_timer w) w).

Definition run_callback (cb : callback) : M unit :=
  match cb with
  | RejectWith p e => reject_fn p e
  end.

(** One micro-task.  [ResolveThenableJob t s] performs [s.then] with the
    resolving functions of [t]. *)
Definition run_job (j : job) : M unit :=
  match j with
  | ResolveThenableJob t s =>
      fun w =>
        match lookup s w with
        | Some {| settled := Some o |} => enqueue [ReactionJob t o] w
        | Some {| settled := None |} =>
            modify s (fun pr => {| settled := settled pr;
                                   alreadyResolved := alreadyResolved pr;
                                   reactions := reactions pr ++ [t] |}) w
        | None => (tt, w)
        end
  | ReactionJob t o => settle t o
  end.

(** The next micro-task, if any. *)
Definition job_step (w : world) : option world :=
  match jobs w with
  | [] => None
  | j :: q => Some (snd (run_job j (set_jobs q w)))
  end.

(** Run micro-tasks until the queue is empty or the fuel is spent. *)
Fixpoint run_jobs (fuel : nat) (w : world) : world :=
  match fuel with
  | O => w
  | S n => match job_step w with
           | None => w
           | Some w' => run_jobs n w'
           end
  end.

(** The handler of timer [t] runs as a task of its own. *)
Definition fire (t : timer) (w : world) : world :=
  snd (run_callback (handler t)
         (set_timers (filter (fun t' => negb (Nat.eqb (timer_id t') (timer_id t))) (timers w))
                     (next_timer w) w)).

(** The event loop between two calls of the program: micro-tasks first;
    with none left, a timer that is due may fire, or time passes. *)
Inductive step : world -> world -> Prop :=
| step_job w w' :
    job_step w = Some w' -> step w w'
| step_timer w t :
    jobs w = [] -> In t (timers w) -> due t <= clock w ->
    step w (fire t w)
| step_idle w d :
    jobs w = [] -> 0 <= d ->
    step w (set_clock (clock w + d) w).

Inductive steps : world -> world -> Prop :=
| steps_refl w : steps w w
| steps_next w1 w2 w3 : step w1 w2 -> steps w2 w3 -> steps w1 w3.

Definition outcome_of (p : promise_ref) (w : world) : option outcome :=
  match lookup p w with
  | Some pr => settled pr
  | None => None
  end.

(** A world with no promise, no job and no timer. *)
Definition boot (cost : nat -> Z) : world :=
  {| clock := 0; map_cost := cost; heap := []; jobs := []; timers := [];
     next_timer := 0 |}.

End JS.

Import JS.
Local Open Scope js_scope.

(* ===================================================================== *)
(** * The language reached through [new Function('return ' + e)()] *)
(* ===================================================================== *)

(** The body handed to [Function] is parsed as a sloppy-mode function body
  and run.  The model follows the ECMAScript grammar on bodies that start
  with [return] and go on with numeric literals (legacy octal ones
  included), [+ - * /], parentheses, calls, white space, line terminators
  and comments, automatic semicolon insertion included.  Whatever else the
  source text may hold (regular-expression literals, [**], [++], [--], a
  lone [.], other words, other characters) is answered by [Unsupported]:
  the model says nothing about such a body.

  The engine parses by recursive descent on a stack of bounded size.  How
  deep a body may be nested is not fixed by ECMAScript: it is the engine's,
  and the model takes it as [room].  A body nested deeper ends in a
  RangeError (Maximum call stack size exceeded). *)

Module Engine.

Inductive answer (A : Type) :=
| Done (a : A)
| Unsupported.
Arguments Done {A} a.
Arguments Unsupported {A}.

(** ** Lexical grammar *)

Inductive token :=
| TReturn
| TNum (n : number)
| TPlus | TMinus | TStar | TSlash
| TLParen | TRParen.

(** A token and whether a line terminator separates it from the token
    before it. *)
Record ltoken := { tok : token; nl_before : bool }.

Definition isLineTerminator (c : code_unit) : bool :=
  (c =? 10) || (c =? 13) || (c =? 8232) || (c =? 8233).

Definition isWordStart (c : code_unit) : bool :=
  isLower c || isUpper c || (c =? 36) || (c =? 95).

Definition isWordPart (c : code_unit) : bool := isWordStart c || isDigit c.

(** What may not directly follow a numeric literal or a word in the
    modelled grammar: identifier characters, escapes, and any character
    beyond Basic Latin that is not white space. *)
Definition isForeign (c : code_unit) : bool :=
  isWordStart c || (c =? 92) || ((128 <=? c) && negb (isWhiteSpace c)).

Definition digit_value (c : code_unit) : Z := c - 48.

Definition digits_value (base : Z) (ds : list code_unit) : Z :=
  fold_left (fun acc c => acc * base + digit_value c) ds 0.

(** [0] followed by octal digits only: a legacy octal literal. *)
Definition legacy_octal (ds : list code_unit) : bool :=
  match ds with
  | 48 :: c :: r => forallb (fun d => d <=? 55) (c :: r)
  | _ => false
  end.

(** The number value of [n / 10^k], rounded to nearest, ties to even. *)
Definition of_decimal (n : Z) (k : nat) : number :=
  match n with
  | Zpos m =>
      SFdiv prec emax (S754_finite false m 0)
                      (S754_finite false (Z.to_pos (10 ^ Z.of_nat k)) 0)
  | _ => S754_zero false
  end.

(** The value of the literal with integer digits [ds] and, after a dot,
    fraction digits [fs]. *)
Definition literal_value (ds : list code_unit) (fs : option (list code_unit)) : number :=
  match fs with
  | None =>
      if legacy_octal ds then of_Z (digits_value 8 ds)
      else of_Z (digits_value 10 ds)
  | Some fs => of_decimal (digits_value 10 (ds ++ fs)) (List.length fs)
  end.

Inductive mode :=
| Between
| InLineComment
| InBlockComment (star : bool)   (* [star]: the last character was [*] *)
| InNumber (ds : list code_unit) (fs : option (list code_unit))
| InWord (cs : list code_unit).

(** What to do once the last character read belongs to a numeric literal,
    from the character that follows. *)
Inductive decision := Continue | Emit | Refuse.

Definition after_digit (ds : list code_unit) (fs : option (list code_unit))
           (r : js_string) : decision :=
  match r with
  | [] => Emit
  | c :: _ =>
      if isDigit c then Continue
      else if c =? 46 then
        match fs with
        | None => if legacy_octal ds then Refuse else Continue
        | Some _ => Emit
        end
      else if isForeign c then Refuse
      else Emit
  end.

Definition after_word (r : js_string) : decision :=
  match r with
  | [] => Emit
  | c :: _ =>
      if isWordPart c then Continue
      else if isForeign c then Refuse
      else Emit
  end.

Definition keyword (cs : list code_unit) : option token :=
  if list_eq_dec Z.eq_dec cs (lit "return") then Some TReturn else None.

Definition lexed := answer (completion (list ltoken)).

Definition emit (t : token) (nl : bool) (rest : lexed) : lexed :=
  match rest with
  | Done (Normal ts) => Done (Normal ({| tok := t; nl_before := nl |} :: ts))
  | other => other
  end.

(** [lex m nl operand s]: the tokens of [s], read in mode [m]; [nl] tells
    whether a line terminator was met since the last token, [operand]
    whether the last token ended an operand, in which case a [/] is a
    division and otherwise the start of a regular-expression literal. *)
Fixpoint lex (m : mode) (nl operand : bool) (s : js_string) : lexed :=
  match s with
  | [] =>
      match m with
      | InBlockComment _ => Done (Throw SyntaxError)
      | _ => Done (Normal [])
      end
  | c :: r =>
      match m with
      | InLineComment =>
          if isLineTerminator c then lex Between true operand r
          else lex InLineComment nl operand r
      | InBlockComment star =>
          if star && (c =? 47) then lex Between nl operand r
          else lex (InBlockComment (c =? 42)) (nl || isLineTerminator c) operand r
      | InNumber ds fs =>
          let ds' := match fs with None => if c =? 46 then ds else ds ++ [c] | Some _ => ds end in
          let fs' := match fs with
                     | None => if c =? 46 then Some [] else None
                     | Some f => Some (f ++ [c])
                     end in
          match after_digit ds' fs' r with
          | Continue => lex (InNumber ds' fs') nl operand r
          | Emit => emit (TNum (literal_value ds' fs')) nl (lex Between false true r)
          | Refuse => Unsupported
          end
      | InWord cs =>
          match after_word r with
          | Continue => lex (InWord (cs ++ [c])) nl operand r
          | Emit =>
              match keyword (cs ++ [c]) with
              | Some t => emit t nl (lex Between false false r)
              | None => Unsupported
              end
          | Refuse => Unsupported
          end
      | Between =>
          if isLineTerminator c then lex Between true operand r
          else if isWhiteSpace c then lex Between nl operand r
          else if isDigit c then
            match after_digit [c] None r with
            | Continue => lex (InNumber [c] None) nl operand r
            | Emit => emit (TNum (literal_value [c] None)) nl (lex Between false true r)
            | Refuse => Unsupported
            end
          else if c =? 46 then
            match r with
            | d :: _ => if isDigit d then lex (InNumber [] (Some [])) nl operand r
                        else Unsupported
            | [] => Unsupported
            end
          else if isWordStart c then
            match after_word r with
            | Continue => lex (InWord [c]) nl operand r
            | Emit =>
                match keyword [c] with
                | Some t => emit t nl (lex Between false false r)
                | None => Unsupported
                end
            | Refuse => Unsupported
            end
          else if c =? 40 then emit TLParen nl (lex Between false false r)
          else if c =? 41 then emit TRParen nl (lex Between false true r)
          else if c =? 43 then
            match r with
            | 43 :: _ => Unsupported
            | _ => emit TPlus nl (lex Between false false r)
            end
          else if c =? 45 then
            match r with
            | 45 :: _ => Unsupported
            | _ => emit TMinus nl (lex Between false false r)
            end
          else if c =? 42 then
            match r with
            | 42 :: _ => Unsupported
            | _ => emit TStar nl (lex Between false false r)
            end
          else if c =? 47 then
            match r with
            | 47 :: _ => lex InLineComment nl operand r
            | 42 :: r' => lex (InBlockComment false) nl operand r'
            | _ => if operand then emit TSlash nl (lex Between false false r)
                   else Unsupported
            end
          else Unsupported
      end
  end.

Definition tokens (body : js_string) : lexed := lex Between false false body.

(** ** Expressions *)

Inductive unop := UPlus | UMinus.
Inductive binop := Add | Sub | Mul | Div.

Inductive expr :=
| ENum (n : number)
| EParen (e : expr)
| EUnary (op : unop) (e : expr)
| EBinary (op : binop) (l r : expr)
| ECall (callee : expr) (arg : option expr).

Inductive presult (A : Type) :=
| Parsed (a : A) (rest : list ltoken)
| Malformed
| Exhausted.
Arguments Parsed {A} a rest.
Arguments Malformed {A}.
Arguments Exhausted {A}.

Definition closing (ts : list ltoken) : option (list ltoken) :=
  match ts with
  | {| tok := TRParen |} :: r => Some r
  | _ => None
  end.

(** Recursive descent along AdditiveExpression, MultiplicativeExpression,
    UnaryExpression, CallExpression and PrimaryExpression; every call
    spends one unit of fuel. *)
Fixpoint parse_additive (fuel : nat) (ts : list ltoken) {struct fuel} : presult expr :=
  match fuel with
  | O => Exhausted
  | S f =>
      match parse_multiplicative f ts with
      | Parsed l r => additive_rest f l r
      | other => other
      end
  end
with additive_rest (fuel : nat) (l : expr) (ts : list ltoken) {struct fuel} : presult expr :=
  match fuel with
  | O => Exhausted
  | S f =>
      match ts with
      | {| tok := TPlus |} :: r =>
          match parse_multiplicative f r with
          | Parsed e r' => additive_rest f (EBinary Add l e) r'
          | other => other
          end
      | {| tok := TMinus |} :: r =>
          match parse_multiplicative f r with
          | Parsed e r' => additive_rest f (EBinary Sub l e) r'
          | other => other
          end
      | _ => Parsed l ts
      end
  end
with parse_multiplicative (fuel : nat) (ts : list ltoken) {struct fuel} : presult expr :=
  match fuel with
  | O => Exhausted
  | S f =>
      match parse_unary f ts with
      | Parsed l r => multiplicative_rest f l r
      | other => other
      end
  end
with multiplicative_rest (fuel : nat) (l : expr) (ts : list ltoken) {struct fuel} : presult expr :=
  match fuel with
  | O => Exhausted
  | S f =>
      match ts with
      | {| tok := TStar |} :: r =>
          match parse_unary f r with
          | Parsed e r' => multiplicative_rest f (EBinary Mul l e) r'
          | other => other
          end
      | {| tok := TSlash |} :: r =>
          match parse_unary f r with
          | Parsed e r' => multiplicative_rest f (EBinary Div l e) r'
          | other => other
          end
      | _ => Parsed l ts
      end
  end
with parse_unary (fuel : nat) (ts : list ltoken) {struct fuel} : presult expr :=
  match fuel with
  | O => Exhausted
  | S f =>
      match ts with
      | {| tok := TPlus |} :: r =>
          match parse_unary f r with
          | Parsed e r' => Parsed (EUnary UPlus e) r'
          | other => other
          end
      | {| tok := TMinus |} :: r =>
          match parse_unary f r with
          | Parsed e r' => Parsed (EUnary UMinus e) r'
          | other => other
          end
      | _ =>
          match parse_primary f ts with
          | Parsed e r => call_rest f e r
          | other => other
          end
      end
  end
with call_rest (fuel : nat) (callee : expr) (ts : list ltoken) {struct fuel} : presult expr :=
  match fuel with
  | O => Exhausted
  | S f =>
      match ts with
      | {| tok := TLParen |} :: r =>
          match closing r with
          | Some r' => call_rest f (ECall callee None) r'
          | None =>
              match parse_additive f r with
              | Parsed a r' =>
                  match closing r' with
                  | Some r'' => call_rest f (ECall callee (Some a)) r''
                  | None => Malformed
                  end
              | other => other
              end
          end
      | _ => Parsed callee ts
      end
  end
with parse_primary (fuel : nat) (ts : list ltoken) {struct fuel} : presult expr :=
  match fuel with
  | O => Exhausted
  | S f =>
      match ts with
      | {| tok := TNum n |} :: r => Parsed (ENum n) r
      | {| tok := TLParen |} :: r =>
          match parse_additive f r with
          | Parsed e r' =>
              match closing r' with
              | Some r'' => Parsed (EParen e) r''
              | None => Malformed
              end
          | other => other
          end
      | _ => Malformed
      end
  end.

(** The fuel is enough for every token list: what bounds the parse is the
    stack, see [nesting] and [new_Function] below. *)
Definition enough (ts : list ltoken) : nat := 6 * S (List.length ts).

Definition parse_expression (ts : list ltoken) : presult expr :=
  parse_additive (enough ts) ts.

(** Automatic semicolon insertion after a complete expression: the text
    ends there, or the next token is on a later line. *)
Definition statement_ends (ts : list ltoken) : bool :=
  match ts with
  | [] => true
  | t :: _ => nl_before t
  end.

(** The expression statements that follow the [return] statement: never
    run, but a syntax error in them is one of the whole body. *)
Fixpoint statements (fuel : nat) (ts : list ltoken) : presult unit :=
  match ts with
  | [] => Parsed tt []
  | _ :: _ =>
      match fuel with
      | O => Exhausted
      | S f =>
          match parse_expression ts with
          | Parsed _ r => if statement_ends r then statements f r else Malformed
          | Malformed => Malformed
          | Exhausted => Exhausted
          end
      end
  end.

(** ** The stack *)

(** The parser descends one level for each parenthesis it opens and for
    each prefix operator whose operand it reads.  [levels pre outer] is
    the depth at a place with [pre] prefix operators waiting for their
    operand inside the innermost open parenthesis, where [outer] lists,
    from that parenthesis outwards, the prefix operators waiting in front
    of each open parenthesis. *)
Definition levels (pre : nat) (outer : list nat) : nat :=
  (pre + list_sum (map S outer))%nat.

(** The deepest level reached on [ts].  [operand] tells whether the token
    before ended an operand: [+] and [-] are binary then, and prefix
    operators otherwise.  A prefix operator waits until the operator or the
    closing parenthesis that follows its operand. *)
Fixpoint descent (pre : nat) (outer : list nat) (operand : bool) (ts : list ltoken) : nat :=
  match ts with
  | [] => O
  | t :: r =>
      match tok t with
      | TLParen => Nat.max (levels O (pre :: outer)) (descent O (pre :: outer) false r)
      | TRParen =>
          match outer with
          | p :: o => descent p o true r
          | [] => descent O [] true r
          end
      | TPlus | TMinus =>
          if operand then descent O outer false r
          else Nat.max (levels (S pre) outer) (descent (S pre) outer false r)
      | TStar | TSlash => descent O outer false r
      | TNum _ => descent (if operand then O else pre) outer true r
      | TReturn => descent pre outer operand r
      end
  end.

Definition nesting (ts : list ltoken) : nat := descent O [] false ts.

(** ** Functions made by [Function] *)

(** The function whose body is [return e] or a bare [return]. *)
Inductive fn := Returns (e : option expr).

Definition is_return (t : ltoken) : bool :=
  match tok t with TReturn => true | _ => false end.

Definition after_return (e : option expr) (ts : list ltoken) : answer (completion fn) :=
  match statements (List.length ts) ts with
  | Parsed _ _ => Done (Normal (Returns e))
  | Malformed => Done (Throw SyntaxError)
  | Exhausted => Unsupported
  end.

(** [new Function(body)], on an engine whose stack has room for [room]
    levels.  The whole body is parsed, the statements behind the [return]
    statement included.  A body that is both nested too deep and malformed
    throws whichever of RangeError and SyntaxError the parser meets first;
    the model has RangeError then, and [safeEval], the one caller, does not
    look at the exception it catches. *)
Definition new_Function (room : nat) (body : js_string) : answer (completion fn) :=
  match tokens body with
  | Unsupported => Unsupported
  | Done (Throw e) => Done (Throw e)
  | Done (Normal ts) =>
      match ts with
      | {| tok := TReturn |} :: rest =>
          if existsb is_return rest then Unsupported
          else if (room <? nesting rest)%nat then Done (Throw RangeError)
          else if statement_ends rest then after_return None rest
          else
            match parse_expression rest with
            | Parsed e r =>
                if statement_ends r then after_return (Some e) r
                else Done (Throw SyntaxError)
            | Malformed => Done (Throw SyntaxError)
            | Exhausted => Unsupported
            end
      | _ => Unsupported
      end
  end.

Definition apply_binop (op : binop) : number -> number -> number :=
  match op with
  | Add => num_add
  | Sub => num_sub
  | Mul => num_mul
  | Div => num_div
  end.

Definition apply_unop (op : unop) (v : number) : number :=
  match op with
  | UPlus => v
  | UMinus => num_neg v
  end.

(** Every value of the fragment is a number, and a call of a number
    throws once the callee and the argument are evaluated. *)
Fixpoint eval (e : expr) : completion number :=
  match e with
  | ENum n => Normal n
  | EParen e => eval e
  | EUnary op e =>
      match eval e with
      | Normal v => Normal (apply_unop op v)
      | Throw x => Throw x
      end
  | EBinary op l r =>
      match eval l with
      | Normal a =>
          match eval r with
          | Normal b => Normal (apply_binop op a b)
          | Throw x => Throw x
          end
      | Throw x => Throw x
      end
  | ECall callee arg =>
      match eval callee with
      | Normal _ =>
          match arg with
          | None => Throw TypeError
          | Some a =>
              match eval a with
              | Normal _ => Throw TypeError
              | Throw x => Throw x
              end
          end
      | Throw x => Throw x
      end
  end.

(** [f()] *)
Definition call (f : fn) : completion value :=
  match f with
  | Returns None => Normal VUndefined
  | Returns (Some e) =>
      match eval e with
      | Normal n => Normal (VNumber n)
      | Throw x => Throw x
      end
  end.

End Engine.

Import Engine.

(* ===================================================================== *)
(** * The program *)
(* ===================================================================== *)

Module App.

Record Config := {
  maxInputLength : Z;
  allowedChars : regexp;
  timeout : Z
}.

(** [/^[a-zA-Z0-9\s\-_]+$/] *)
Definition config : Config := {|
  maxInputLength := 1000;
  allowedChars :=
    AnchoredPlus [CRange 97 122; CRange 65 90; CRange 48 57;
                  CSpace; CChar 45; CChar 95];
  timeout := 5000
|}.

Definition processInput (cfg : Config) (input : value) : completion value :=
  if negb (truthy input) || negb (typeof input =? "string")%string then
    Throw (Error "Input must be a non-empty string")
  else if str_length (chars input) >? maxInputLength cfg then
    Throw (Error "Input too long")
  else if negb (RegExp_test (allowedChars cfg) (chars input)) then
    Throw (Error "Input contains invalid characters")
  else
    Normal (VString (toUpperCase (trim (chars input)))).

(** [/^[0-9+\-*/().\s]+$/] *)
Definition expression_chars : regexp :=
  AnchoredPlus [CRange 48 57; CChar 43; CChar 45; CChar 42; CChar 47;
                CChar 40; CChar 41; CChar 46; CSpace].

(** [safeEval(expression)], run by an engine with [room] levels of stack. *)
Definition safeEval (room : nat) (expression : value) : answer (completion value) :=
  if negb (truthy expression) || negb (typeof expression =? "string")%string then
    Done (Throw (Error "Expression must be a string"))
  else if negb (RegExp_test expression_chars (chars expression)) then
    Done (Throw (Error "Invalid characters in expression"))
  else
    (* try *)
    match new_Function room (lit "return " ++ chars expression) with
    | Done (Normal f) =>
        match call f with
        | Normal v => Done (Normal v)
        | Throw _ => Done (Throw (Error "Invalid mathematical expression"))
        end
    | Done (Throw _) => Done (Throw (Error "Invalid mathematical expression"))
    | Unsupported => Unsupported
    end.

Definition two : number := of_Z 2.

(** The callback of [data.map]; [to_number] reads the operand of [*]
    after the [typeof] test. *)
Definition to_number (v : value) : number :=
  match v with VNumber n => n | _ => S754_nan end.

Definition double_item (item : value) : completion value :=
  if negb (typeof item =? "number")%string then
    Throw (Error "All items must be numbers")
  else
    Normal (VNumber (num_mul (to_number item) two)).

(** The executor handed to [new Promise]; [p] stands for its [resolve]
    and [reject]. *)
Definition executor (cfg : Config) (data : value) (p : promise_ref)
  : M (completion unit) :=
  timeout_id <- setTimeout (RejectWith p (Error "Processing timeout")) (timeout cfg) ;;
  r <- timed_map double_item (slots data) ;;   (* try *)
  match r with
  | Normal result =>
      clearTimeout timeout_id ;;
      resolve_fn p (VArray result) ;;
      ret (Normal tt)
  | Throw error =>
      clearTimeout timeout_id ;;
      reject_fn p error ;;
      ret (Normal tt)
  end.

(** The body of [processData], before [async] wraps it. *)
Definition processData_body (cfg : Config) (data : value)
  : M (completion promise_ref) :=
  if negb (Array_isArray data) then
    ret (Throw (Error "Data must be an array"))
  else
    p <- new_Promise (executor cfg data) ;;
    ret (Normal p).

Definition processData (cfg : Config) (data : value) : M (completion promise_ref) :=
  async (processData_body cfg data).

End App.

Import App.

(* ===================================================================== *)
(** * Worlds met along a call of [processData] *)
(* ===================================================================== *)

Module Trace.

(** What the transform settles its promise with. *)
Definition transform_outcome (l : list (option value)) : outcome :=
  match Array_map double_item l with
  | Normal r => Fulfilled (VArray r)
  | Throw e => Rejected e
  end.

(** A promise whose resolving functions have been used. *)
Definition resolved (o : option outcome) : promise :=
  {| settled := o; alreadyResolved := true; reactions := [] |}.

(** The timer the executor sets. *)
Definition own_timer (cfg : Config) (w : world) : timer :=
  {| timer_id := next_timer w;
     due := clock w + effective_delay (timeout cfg);
     handler := RejectWith (S (List.length (heap w))) (Error "Processing timeout") |}.

(** The world when [processData], called on the array [l] in [w], returns:
    the promise of the call is pending, the promise of the transform is
    settled, one job is queued, the timer is cleared. *)
Definition after_call (cfg : Config) (l : list (option value)) (w : world) : world :=
  {| clock := clock w + map_cost w (List.length l);
     map_cost := map_cost w;
     heap := heap w ++ [resolved None; resolved (Some (transform_outcome l))];
     jobs := jobs w ++ [ResolveThenableJob (List.length (heap w)) (S (List.length (heap w)))];
     timers := filter (fun t => negb (Nat.eqb (timer_id t) (next_timer w)))
                      (timers w ++ [own_timer cfg w]);
     next_timer := S (next_timer w) |}.

(** After the first job, and after the second. *)
Definition in_flight (cfg : Config) (l : list (option value)) (w : world) : world :=
  set_jobs [ReactionJob (List.length (heap w)) (transform_outcome l)] (after_call cfg l w).

Definition delivered (cfg : Config) (l : list (option value)) (w : world) : world :=
  set_jobs []
    (set_heap (heap w ++ [resolved (Some (transform_outcome l));
                          resolved (Some (transform_outcome l))])
              (after_call cfg l w)).

(** [f] leaves the outcome of a settled promise alone. *)
Definition keeps (f : promise -> promise) : Prop :=
  forall pr o, settled pr = Some o -> settled (f pr) = Some o.

(** An array of integers. *)
Definition nums (l : list Z) : value :=
  VArray (map (fun z => Some (VNumber (of_Z z))) l).

(** A configuration that differs from [config] by its timeout. *)
Definition with_timeout (t : Z) : Config :=
  {| maxInputLength := maxInputLength config;
     allowedChars := allowedChars config;
     timeout := t |}.

(** The double of a binary64 number: one more in the exponent of a normal
    number, infinity beyond the largest exponent, twice the significand of
    a subnormal number. *)
Definition doubled (x : number) : number :=
  match x with
  | S754_finite s m e =>
      if (digits2_pos m =? 53)%positive then
        if e <? 971 then S754_finite s m (e + 1) else S754_infinity s
      else S754_finite s (m~0) e
  | other => other
  end.

End Trace.

Import Trace.

(* ===================================================================== *)
(** * Vocabulary of the specification *)
(* ===================================================================== *)

Module Spec.

(** The failures of the specification's taxonomy are told apart by the
    message of the [Error] the program throws:
    - InvalidArgument: "Input must be a non-empty string", "Expression must
      be a string", "Data must be an array";
    - TooLong: "Input too long";
    - DisallowedCharacters: "Input contains invalid characters", "Invalid
      characters in expression";
    - TypeError (of an array element): "All items must be numbers";
    - EvaluationError: "Invalid mathematical expression";
    - Timeout: "Processing timeout". *)

(** Letters, digits, white space, hyphen and underscore. *)
Definition allowed_char (c : code_unit) : bool :=
  isLower c || isUpper c || isDigit c || isWhiteSpace c || (c =? 45) || (c =? 95).

(** A string matches the allowed pattern. *)
Definition matches_pattern (s : js_string) : Prop :=
  s <> [] /\ Forall (fun c => allowed_char c = true) s.

Definition blank (s : js_string) : Prop :=
  Forall (fun c => isWhiteSpace c = true) s.

Definition starts_clean (t : js_string) : Prop :=
  match t with
  | c :: _ => isWhiteSpace c = false
  | [] => True
  end.

(** [t] is [s] without its leading and trailing white space. *)
Definition trimmed_of (s t : js_string) : Prop :=
  exists l r, s = l ++ t ++ r /\ blank l /\ blank r
              /\ starts_clean t /\ starts_clean (rev t).

(** [u] is [t] with [a-z] replaced by [A-Z] and nothing else changed. *)
Definition upper_of (t u : js_string) : Prop :=
  Forall2 (fun a b => if isLower a then b = a - 32 else b = a) t u.

(** Digits, the four operators, parentheses, the dot and white space. *)
Definition expression_char (c : code_unit) : bool :=
  isDigit c || (c =? 43) || (c =? 45) || (c =? 42) || (c =? 47)
  || (c =? 40) || (c =? 41) || (c =? 46) || isWhiteSpace c.

Definition mk (t : token) (nl : bool) : ltoken := {| tok := t; nl_before := nl |}.

(** The expression text [s] is read as the tokens [ts]. *)
Definition reads_as (s : js_string) (ts : list ltoken) : Prop :=
  tokens (lit "return " ++ s) = Done (Normal (mk TReturn false :: ts)).

(** How deep the expression text [s] is nested. *)
Definition depth_of (s : js_string) : nat :=
  match tokens (lit "return " ++ s) with
  | Done (Normal (_ :: ts)) => nesting ts
  | _ => O
  end.

(** The first token is on the line of [return]. *)
Definition same_line (ts : list ltoken) : Prop :=
  match ts with
  | t :: _ => nl_before t = false
  | [] => False
  end.

Inductive level := Sum | Term | Factor.

(** [derives lv ts v]: the tokens [ts] form a sum, a term or a factor of
    value [v].  Operators of one level associate to the left, [*] and [/]
    bind tighter than [+] and [-], parentheses group. *)
Inductive derives : level -> list ltoken -> number -> Prop :=
| d_literal n nl :
    derives Factor [mk (TNum n) nl] n
| d_group ts v nl nl' :
    derives Sum ts v ->
    derives Factor (mk TLParen nl :: ts ++ [mk TRParen nl']) v
| d_factor ts v :
    derives Factor ts v -> derives Term ts v
| d_mul ts1 ts2 v1 v2 nl :
    derives Term ts1 v1 -> derives Factor ts2 v2 ->
    derives Term (ts1 ++ mk TStar nl :: ts2) (num_mul v1 v2)
| d_div ts1 ts2 v1 v2 nl :
    derives Term ts1 v1 -> derives Factor ts2 v2 ->
    derives Term (ts1 ++ mk TSlash nl :: ts2) (num_div v1 v2)
| d_term ts v :
    derives Term ts v -> derives Sum ts v
| d_add ts1 ts2 v1 v2 nl :
    derives Sum ts1 v1 -> derives Term ts2 v2 ->
    derives Sum (ts1 ++ mk TPlus nl :: ts2) (num_add v1 v2)
| d_sub ts1 ts2 v1 v2 nl :
    derives Sum ts1 v1 -> derives Term ts2 v2 ->
    derives Sum (ts1 ++ mk TMinus nl :: ts2) (num_sub v1 v2).

(** What may follow a factor, and a term, without extending it. *)
Definition ends_factor (rest : list ltoken) : bool :=
  match rest with
  | {| tok := TLParen |} :: _ => false
  | _ => true
  end.

Definition ends_term (rest : list ltoken) : bool :=
  match rest with
  | {| tok := TLParen |} :: _ | {| tok := TStar |} :: _ | {| tok := TSlash |} :: _ => false
  | _ => true
  end.

(** What the parser does on a derivation of each level, with the fuel it
    is given and the fuel it hands to the loop of that level. *)
Definition parses (lv : level) (ts : list ltoken) (v : number) : Prop :=
  match lv with
  | Factor =>
      exists e, eval e = Normal v
        /\ forall f rest, (6 * List.length ts + 2 <= f)%nat -> ends_factor rest = true ->
             parse_unary f (ts ++ rest) = Parsed e rest
  | Term =>
      exists e k, eval e = Normal v /\ (k <= List.length ts)%nat
        /\ forall f rest, (6 * List.length ts + 3 <= f)%nat -> ends_factor rest = true ->
             parse_multiplicative f (ts ++ rest) = multiplicative_rest (f - k) e rest
  | Sum =>
      exists e k, eval e = Normal v /\ (k <= List.length ts)%nat
        /\ forall f rest, (6 * List.length ts + 4 <= f)%nat -> ends_term rest = true ->
             parse_additive f (ts ++ rest) = additive_rest (f - k) e rest
  end.

End Spec.

Import Spec.

(* ===================================================================== *)
(** * Vocabulary of the further properties *)
(* ===================================================================== *)

Module More.

(** The characters of a result of [processInput]: as [allowed_char],
    without [a-z]. *)
Definition upper_alphabet (c : code_unit) : bool :=
  isUpper c || isDigit c || isWhiteSpace c || (c =? 45) || (c =? 95).

(** The first token, if any, comes after a line terminator. *)
Definition after_break (ts : list ltoken) : Prop :=
  match ts with
  | t :: _ => nl_before t = true
  | [] => True
  end.

(** A sum with a dangling [+] or [-], a closing parenthesis too many, or an
    opening parenthesis never closed. *)
Inductive unbalanced : list ltoken -> Prop :=
| dangling_plus ts v nl :
    derives Sum ts v -> unbalanced (ts ++ [mk TPlus nl])
| dangling_minus ts v nl :
    derives Sum ts v -> unbalanced (ts ++ [mk TMinus nl])
| stray_close ts v nl :
    derives Sum ts v -> unbalanced (ts ++ [mk TRParen nl])
| missing_close ts v nl :
    derives Sum ts v -> unbalanced (mk TLParen nl :: ts).

(** A literal directly followed by a parenthesised sum. *)
Inductive juxtaposed : list ltoken -> Prop :=
| juxtaposed_sum n ts v nl nl1 nl2 :
    derives Sum ts v ->
    juxtaposed (mk (TNum n) nl :: mk TLParen nl1 :: ts ++ [mk TRParen nl2]).

(** The timers of [w] carry identifiers that [setTimeout] has given out. *)
Definition timers_known (w : world) : Prop :=
  forall t, In t (timers w) -> timer_id t <> next_timer w.

(** The slots of an array of numbers with holes. *)
Definition numbers (ns : list (option number)) : list (option value) :=
  map (option_map VNumber) ns.

(** [n * 2] *)
Definition twice (n : number) : number := num_mul n two.

(** A world with one timer waiting. *)
Definition busy_world : world :=
  {| clock := 10; map_cost := fun _ => 3; heap := []; jobs := [];
     timers := [{| timer_id := 0%nat; due := 50;
                   handler := RejectWith 7%nat (Error "other") |}];
     next_timer := 1%nat |}.

(** A non-empty string of decimal digits. *)
Definition digits (ds : js_string) : Prop :=
  ds <> [] /\ Forall (fun c => isDigit c = true) ds.

(** The base in which an integer literal is read. *)
Definition radix (ds : js_string) : Z := if legacy_octal ds then 8 else 10.

(** An infinity or NaN. *)
Definition not_finite (x : number) : bool :=
  match x with
  | S754_infinity _ | S754_nan => true
  | _ => false
  end.

End More.

Import More.

(* ===================================================================== *)
(** * The driver [main] *)
(* ===================================================================== *)

Module Driver.

(** What the process shows of a run: the calls of [console.log] and
    [console.error] with their arguments, and [process.exit]. *)
Inductive event :=
| Log (args : list value)
| LogError (args : list value)
| Exit (code : Z).

(** [error.message]; the text of the engine's own exceptions is not
    modelled. *)
Definition message (e : error) : option value :=
  match e with
  | Error m => Some (VString (lit m))
  | _ => None
  end.

(** [await p]: the function goes on once [p] is settled, the micro-tasks
    queued running meanwhile, at most [fuel] of them; [None] when [p] is
    still pending then. *)
Fixpoint await (fuel : nat) (p : promise_ref) (w : world) : option outcome * world :=
  match outcome_of p w with
  | Some o => (Some o, w)
  | None =>
      match fuel with
      | O => (None, w)
      | S n =>
          match job_step w with
          | Some w' => await n p w'
          | None => (None, w)
          end
      end
  end.

(** The [catch] block of [main]: the message goes to [console.error] and
    the process exits with status 1; nothing runs after that. *)
Definition catch (out : list event) (e : error) (w : world)
  : answer (list event * world) :=
  match message e with
  | Some m => Done (out ++ [LogError [VString (lit "Error:"); m]; Exit 1], w)
  | None => Unsupported
  end.

(** [main()], with the events in the order they happen.  [main] is an
    [async function]: its own promise is made first and fulfilled with
    [undefined] when the body ends.  While the promise awaited is pending,
    [main] is suspended: the events are those so far. *)
Definition main (cfg : Config) (room fuel : nat) (w : world)
  : answer (list event * world) :=
  let (self, w0) := new_promise w in
  let out0 := [Log [VString (lit "Starting secure JavaScript application...")]] in
  let input := VString (lit "Hello World") in
  match processInput cfg input with
  | Throw e => catch out0 e w0
  | Normal processed =>
      let out1 := out0 ++ [Log [VString (lit "Processed input:"); processed]] in
      let expression := VString (lit "2 + 3 * 4") in
      match safeEval room expression with
      | Unsupported => Unsupported
      | Done (Throw e) => catch out1 e w0
      | Done (Normal result) =>
          let out2 := out1 ++ [Log [VString (lit "Expression result:"); result]] in
          let data := nums [1; 2; 3; 4; 5] in
          match processData cfg data w0 with
          | (Throw e, w1) => catch out2 e w1
          | (Normal p, w1) =>
              match await fuel p w1 with
              | (Some (Fulfilled processedData), w2) =>
                  Done (out2 ++ [Log [VString (lit "Processed data:"); processedData];
                                 Log [VString (lit "Application completed successfully!")]],
                        snd (resolve_fn self VUndefined w2))
              | (Some (Rejected e), w2) => catch out2 e w2
              | (None, w2) => Done (out2, w2)
              end
          end
      end
  end.

(** The lines of a run without failure, for the value [processed] of the
    first step. *)
Definition success_lines (processed : value) : list event :=
  [ Log [VString (lit "Starting secure JavaScript application...")];
    Log [VString (lit "Processed input:"); processed];
    Log [VString (lit "Expression result:"); VNumber (of_Z 14)];
    Log [VString (lit "Processed data:"); nums [2; 4; 6; 8; 10]];
    Log [VString (lit "Application completed successfully!")] ].

(** The lines of a run whose first step fails with message [m]. *)
Definition failure_lines (m : string) : list event :=
  [ Log [VString (lit "Starting secure JavaScript application...")];
    LogError [VString (lit "Error:"); VString (lit m)];
    Exit 1 ].

End Driver.
Import Driver.

(* ===================================================================== *)
(** * The sanitizer [processInput] *)
(* ===================================================================== *)

Ltac to_prop :=
repeat rewrite ?orb_true_iff, ?andb_true_iff, ?orb_false_iff, ?andb_false_iff,
  ?negb_true_iff, ?negb_false_iff,
  ?Z.leb_le, ?Z.leb_gt, ?Z.eqb_eq, ?Z.eqb_neq, ?Z.gtb_ltb, ?Z.ltb_lt, ?Z.ltb_ge in *.

Section Sanitizer.

Lemma class_allowed c :
  class_matches (char_class (allowedChars config)) c = allowed_char c.
Proof.
  unfold class_matches, allowed_char, isLower, isUpper, isDigit. simpl.
  rewrite orb_false_r.
  destruct ((97 <=? c) && (c <=? 122)), ((65 <=? c) && (c <=? 90)),
    ((48 <=? c) && (c <=? 57)), (isWhiteSpace c), (c =? 45), (c =? 95);
    reflexivity.
Qed.

Lemma test_allowed s :
  RegExp_test (allowedChars config) s = true <-> matches_pattern s.
Proof.
  unfold RegExp_test, matches_pattern. destruct s as [|c r].
  - split; [discriminate | intros [H _]; contradiction].
  - rewrite forallb_forall, Forall_forall. split.
    + intros H. split; [discriminate|].
      intros x Hx. rewrite <- class_allowed. now apply H.
    + intros [_ H] x Hx. rewrite class_allowed. now apply H.
Qed.

(** *** [trim] *)

Lemma trimStart_split s :
  exists l, s = l ++ trimStart s /\ blank l.
Proof.
  induction s as [|c r IH]; simpl.
  - exists []. split; [reflexivity | constructor].
  - destruct (isWhiteSpace c) eqn:E.
    + destruct IH as [l [Hl Hb]]. exists (c :: l). split.
      * simpl. now rewrite <- Hl.
      * now constructor.
    + exists []. split; [reflexivity | constructor].
Qed.

Lemma trimStart_clean s : starts_clean (trimStart s).
Proof.
  induction s as [|c r IH]; simpl; [exact I|].
  destruct (isWhiteSpace c) eqn:E; [exact IH | exact E].
Qed.

Lemma trimStart_fixed t : starts_clean t -> trimStart t = t.
Proof.
  destruct t as [|c r]; simpl; intros H; [reflexivity|]. now rewrite H.
Qed.

Lemma trimStart_blank s : blank s -> trimStart s = [].
Proof.
  induction 1 as [|c r Hc _ IH]; simpl; [reflexivity|]. now rewrite Hc.
Qed.

Lemma trimStart_last a c :
  isWhiteSpace c = false -> trimStart (a ++ [c]) = trimStart a ++ [c].
Proof.
  intros Hc. induction a as [|x a IH]; simpl.
  - now rewrite Hc.
  - destruct (isWhiteSpace x); [exact IH | reflexivity].
Qed.

Lemma trimEnd_cons c s :
  isWhiteSpace c = false -> trimEnd (c :: s) = c :: trimEnd s.
Proof.
  intros Hc. unfold trimEnd. simpl.
  rewrite (trimStart_last _ _ Hc), rev_app_distr. reflexivity.
Qed.

Lemma blank_rev s : blank s -> blank (rev s).
Proof. unfold blank. apply Forall_rev. Qed.

Lemma trimEnd_split s :
  exists r, s = trimEnd s ++ r /\ blank r.
Proof.
  destruct (trimStart_split (rev s)) as [l [Hl Hb]].
  exists (rev l). split.
  - unfold trimEnd. rewrite <- rev_app_distr, <- Hl. symmetry. apply rev_involutive.
  - now apply blank_rev.
Qed.

Lemma trim_spec s : trimmed_of s (trim s).
Proof.
  unfold trimmed_of, trim.
  destruct (trimStart_split s) as [l [Hl Hbl]].
  destruct (trimEnd_split (trimStart s)) as [r [Hr Hbr]].
  exists l, r. repeat split; try assumption.
  - rewrite <- Hr. exact Hl.
  - pose proof (trimStart_clean s) as Hc.
    destruct (trimStart s) as [|c s']; [exact I|].
    simpl in Hc. rewrite (trimEnd_cons _ _ Hc). exact Hc.
  - unfold trimEnd. rewrite rev_involutive. apply trimStart_clean.
Qed.

Lemma trim_fixed t : starts_clean t -> starts_clean (rev t) -> trim t = t.
Proof.
  intros H1 H2. unfold trim, trimEnd.
  rewrite (trimStart_fixed _ H1), (trimStart_fixed _ H2). apply rev_involutive.
Qed.

Lemma trim_blank s : blank s -> trim s = [].
Proof.
  intros H. unfold trim. now rewrite (trimStart_blank _ H).
Qed.

(** What [trim] leaves is a piece of the input. *)
Lemma trim_piece s : exists l r, s = l ++ trim s ++ r.
Proof.
  destruct (trim_spec s) as [l [r [H _]]]. now exists l, r.
Qed.

Lemma trim_Forall (P : code_unit -> Prop) s : Forall P s -> Forall P (trim s).
Proof.
  intros H. destruct (trim_piece s) as [l [r E]]. rewrite E in H.
  apply Forall_app in H. destruct H as [_ H].
  apply Forall_app in H. now destruct H.
Qed.

Lemma trim_length s : (List.length (trim s) <= List.length s)%nat.
Proof.
  destruct (trim_piece s) as [l [r E]].
  rewrite E at 2. rewrite !length_app. lia.
Qed.

Lemma trim_nonempty s :
  (exists c, In c s /\ isWhiteSpace c = false) -> trim s <> [].
Proof.
  intros [c [Hin Hc]] E.
  destruct (trim_spec s) as [l [r [Hs [Hl [Hr _]]]]].
  rewrite E in Hs. simpl in Hs. rewrite Hs in Hin.
  assert (Hb : blank (l ++ r)) by (apply Forall_app; now split).
  unfold blank in Hb. rewrite Forall_forall in Hb.
  specialize (Hb c Hin). congruence.
Qed.

(** *** [toUpperCase] *)

Lemma isWhiteSpace_upper c : isWhiteSpace (upper_unit c) = isWhiteSpace c.
Proof.
  unfold upper_unit. destruct (isLower c) eqn:E; [|reflexivity].
  unfold isLower in E. to_prop.
  assert (H1 : isWhiteSpace (c - 32) = false)
    by (unfold isWhiteSpace; to_prop; lia).
  assert (H2 : isWhiteSpace c = false)
    by (unfold isWhiteSpace; to_prop; lia).
  congruence.
Qed.

Lemma upper_unit_idem c : upper_unit (upper_unit c) = upper_unit c.
Proof.
  unfold upper_unit at 1. destruct (isLower (upper_unit c)) eqn:E; [|reflexivity].
  exfalso. unfold upper_unit in E.
  destruct (isLower c) eqn:E'; [|congruence].
  unfold isLower in *. to_prop. lia.
Qed.

Lemma allowed_upper c : allowed_char c = true -> allowed_char (upper_unit c) = true.
Proof.
  unfold upper_unit. destruct (isLower c) eqn:E; [|trivial].
  intros _. unfold allowed_char, isUpper. unfold isLower in E. to_prop. lia.
Qed.

Lemma toUpperCase_idem s : toUpperCase (toUpperCase s) = toUpperCase s.
Proof.
  unfold toUpperCase. rewrite map_map. apply map_ext. apply upper_unit_idem.
Qed.

Lemma toUpperCase_spec t : upper_of t (toUpperCase t).
Proof.
  unfold upper_of. induction t as [|c r IH]; simpl; constructor; [|exact IH].
  unfold upper_unit. destruct (isLower c); reflexivity.
Qed.

Lemma starts_clean_upper t : starts_clean t -> starts_clean (toUpperCase t).
Proof.
  destruct t as [|c r]; simpl; [trivial|]. now rewrite isWhiteSpace_upper.
Qed.

Lemma rev_toUpperCase t : rev (toUpperCase t) = toUpperCase (rev t).
Proof. unfold toUpperCase. symmetry. apply map_rev. Qed.

(** *** The three guards *)

Lemma processInput_string s :
  processInput config (VString s) =
    match s with
    | [] => Throw (Error "Input must be a non-empty string")
    | _ =>
        if str_length s >? 1000 then Throw (Error "Input too long")
        else if RegExp_test (allowedChars config) s
             then Normal (VString (toUpperCase (trim s)))
             else Throw (Error "Input contains invalid characters")
    end.
Proof.
  unfold processInput. destruct s as [|c r]; [reflexivity|].
  cbn [truthy typeof negb orb String.eqb chars maxInputLength config].
  change (("string" =? "string")%string) with true. cbn [negb orb].
  destruct (str_length (c :: r) >? 1000); [reflexivity|].
  destruct (RegExp_test _ _); reflexivity.
Qed.

Lemma trimStart_skip l x : blank l -> trimStart (l ++ x) = trimStart x.
Proof.
induction 1 as [|c l Hc _ IH]; simpl; [reflexivity|]. now rewrite Hc.
Qed.

(** The trimmed string is determined by [trimmed_of]. *)
Lemma trimmed_of_trim s t : trimmed_of s t -> t = trim s.
Proof.
intros [l [r [Hs [Hl [Hr [Ht Ht']]]]]]. subst s.
unfold trim. rewrite (trimStart_skip _ _ Hl).
destruct t as [|c t'].
- simpl. now rewrite (trimStart_blank _ Hr).
- assert (E : trimStart ((c :: t') ++ r) = (c :: t') ++ r)
    by (apply trimStart_fixed; exact Ht).
  rewrite E. unfold trimEnd. rewrite rev_app_distr.
  rewrite (trimStart_skip _ _ (blank_rev _ Hr)).
  rewrite (trimStart_fixed _ Ht'). symmetry. apply rev_involutive.
Qed.

Lemma upper_of_toUpperCase t u : upper_of t u -> u = toUpperCase t.
Proof.
induction 1 as [|a b t u Hab _ IH]; simpl; [reflexivity|].
rewrite IH. f_equal. unfold upper_unit. destruct (isLower a); exact Hab.
Qed.

Lemma pattern_test s : matches_pattern s -> RegExp_test (allowedChars config) s = true.
Proof. apply test_allowed. Qed.

Lemma length_gtb_false s : str_length s <= 1000 -> (str_length s >? 1000) = false.
Proof. intros H. to_prop. lia. Qed.

Lemma length_gtb_true s : 1000 < str_length s -> (str_length s >? 1000) = true.
Proof. intros H. to_prop. lia. Qed.

Lemma processInput_value s :
  matches_pattern s -> str_length s <= 1000 ->
  processInput config (VString s) = Normal (VString (toUpperCase (trim s))).
Proof.
intros Hm Hl. rewrite processInput_string.
destruct s as [|c r]; [destruct Hm as [Hm _]; contradiction|].
now rewrite (length_gtb_false _ Hl), (pattern_test _ Hm).
Qed.

(** C3. A string that matches the allowed pattern and is at most 1000 code
    units long is accepted, and the value returned is that string without
    its leading and trailing white space, its letters [a-z] turned into
    [A-Z].  [processInput] is a function of the configuration and of its
    argument alone: it reads and writes nothing else. *)
Theorem processInput_accepts (s : js_string) :
  matches_pattern s -> str_length s <= 1000 ->
  exists t u, trimmed_of s t /\ upper_of t u
              /\ processInput config (VString s) = Normal (VString u).
Proof.
intros Hm Hl. exists (trim s), (toUpperCase (trim s)).
split; [apply trim_spec|]. split; [apply toUpperCase_spec|].
now apply processInput_value.
Qed.

Lemma processInput_accepts_witness :
  exists t u, trimmed_of (lit "  Hello World ") t /\ upper_of t u
              /\ processInput config (VString (lit "  Hello World ")) = Normal (VString u).
Proof.
apply (processInput_accepts (lit "  Hello World ")).
- split; [discriminate | repeat constructor].
- vm_compute. discriminate.
Defined.

(** C10. A non-empty string of white space only, at most 1000 code units
    long, is accepted and yields the empty string, which [processInput]
    itself refuses as an input; the length is checked on the input as
    given, before any trimming. *)
Theorem processInput_blank (s : js_string) :
  s <> [] -> blank s -> str_length s <= 1000 ->
  processInput config (VString s) = Normal (VString [])
  /\ processInput config (VString []) = Throw (Error "Input must be a non-empty string")
  /\ (forall pad, blank pad -> 1000 < str_length (s ++ pad) ->
        trim (s ++ pad) = []
        /\ processInput config (VString (s ++ pad)) = Throw (Error "Input too long")).
Proof.
intros Hne Hb Hl. split; [|split].
- rewrite processInput_value; trivial.
  + now rewrite (trim_blank _ Hb).
  + split; [exact Hne|]. unfold blank in Hb.
    eapply Forall_impl; [|exact Hb]. intros c Hc. unfold allowed_char.
    rewrite Hc. now rewrite !orb_true_r.
- reflexivity.
- intros pad Hp Hlen. split.
  + apply trim_blank. apply Forall_app. now split.
  + rewrite processInput_string. destruct s as [|c r]; [contradiction|].
    simpl app in Hlen |- *. now rewrite (length_gtb_true _ Hlen).
Qed.

Lemma processInput_blank_witness :
  processInput config (VString [32; 9; 10]) = Normal (VString [])
  /\ processInput config (VString []) = Throw (Error "Input must be a non-empty string")
  /\ (forall pad, blank pad -> 1000 < str_length ([32; 9; 10] ++ pad) ->
        trim ([32; 9; 10] ++ pad) = []
        /\ processInput config (VString ([32; 9; 10] ++ pad)) = Throw (Error "Input too long")).
Proof.
apply (processInput_blank [32; 9; 10]).
- discriminate.
- repeat constructor.
- vm_compute. discriminate.
Defined.

(** C9, as the code has it.  An argument that is not a string, or the empty
    string, fails with InvalidArgument; a string longer than 1000 code
    units fails with TooLong; a string of at most 1000 code units that
    holds a character outside letters, digits, white space, hyphen and
    underscore fails with DisallowedCharacters. *)
Theorem processInput_rejects (v : value) :
  ((forall s, v <> VString s) \/ v = VString [] ->
     processInput config v = Throw (Error "Input must be a non-empty string"))
  /\ (forall s, v = VString s -> 1000 < str_length s ->
        processInput config v = Throw (Error "Input too long"))
  /\ (forall s, v = VString s -> str_length s <= 1000 ->
        (exists c, In c s /\ allowed_char c = false) ->
        processInput config v = Throw (Error "Input contains invalid characters")).
Proof.
split; [|split].
- intros [H | H].
  + destruct v; try reflexivity.
    * unfold processInput. simpl. now destruct b.
    * unfold processInput. simpl.
      destruct n as [| |  |]; reflexivity.
    * unfold processInput. simpl. now destruct (z =? 0).
    * exfalso. now apply (H s).
  + subst v. reflexivity.
- intros s -> Hl. rewrite processInput_string.
  destruct s as [|c r]; [discriminate Hl|].
  now rewrite (length_gtb_true _ Hl).
- intros s -> Hl [c [Hin Hc]]. rewrite processInput_string.
  destruct s as [|x r]; [contradiction|].
  rewrite (length_gtb_false _ Hl).
  destruct (RegExp_test (allowedChars config) (x :: r)) eqn:E; [|reflexivity].
  apply test_allowed in E. destruct E as [_ E].
  rewrite Forall_forall in E. specialize (E c Hin). congruence.
Qed.

Lemma processInput_rejects_witness :
  processInput config VUndefined = Throw (Error "Input must be a non-empty string")
  /\ processInput config (VString (repeat 97 1001)) = Throw (Error "Input too long")
  /\ processInput config (VString (lit "<script>")) = Throw (Error "Input contains invalid characters").
Proof.
split; [|split].
- apply (processInput_rejects VUndefined). left. discriminate.
- apply (processInput_rejects (VString (repeat 97 1001))) with (s := repeat 97 1001).
  + reflexivity.
  + vm_compute. reflexivity.
- apply (processInput_rejects (VString (lit "<script>"))) with (s := lit "<script>").
  + reflexivity.
  + vm_compute. discriminate.
  + exists 60. split; [now left | reflexivity].
Defined.

(** C9 as stated fails: a string of 1001 characters [<] holds a disallowed
    character and is refused for its length, not for its characters. *)
Lemma processInput_long_symbols :
  ~ (forall s, (exists c, In c s /\ allowed_char c = false) ->
               processInput config (VString s) = Throw (Error "Input contains invalid characters")).
Proof.
intros H. specialize (H (repeat 60 1001)).
assert (E : processInput config (VString (repeat 60 1001)) = Throw (Error "Input too long"))
  by (vm_compute; reflexivity).
rewrite E in H. 
assert (D : @Throw value (Error "Input too long")
             = Throw (Error "Input contains invalid characters")).
{ apply H. exists 60. split; [now left | reflexivity]. }
discriminate D.
Qed.

(** C2, as the code has it.  On a string that matches the allowed pattern,
    is at most 1000 code units long and holds a character that is not white
    space, [processInput] succeeds, and applied to its own result it
    succeeds again with the same value. *)
Theorem processInput_idempotent (s : js_string) :
  matches_pattern s -> str_length s <= 1000 ->
  (exists c, In c s /\ isWhiteSpace c = false) ->
  exists t, processInput config (VString s) = Normal (VString t)
            /\ processInput config (VString t) = Normal (VString t).
Proof.
intros Hm Hl Hc. exists (toUpperCase (trim s)).
split; [now apply processInput_value|].
destruct (trim_spec s) as [l [r [_ [_ [_ [Hs He]]]]]].
rewrite processInput_value.
- rewrite trim_fixed.
  + now rewrite toUpperCase_idem.
  + now apply starts_clean_upper.
  + rewrite rev_toUpperCase. now apply starts_clean_upper.
- split.
  + intros E. apply (trim_nonempty _ Hc).
    unfold toUpperCase in E. now apply map_eq_nil in E.
  + unfold toUpperCase. apply Forall_map.
    apply trim_Forall. destruct Hm as [_ Hm].
    eapply Forall_impl; [|exact Hm]. apply allowed_upper.
- unfold str_length, toUpperCase in *. rewrite length_map.
  pose proof (trim_length s). lia.
Qed.

Lemma processInput_idempotent_witness :
  exists t, processInput config (VString (lit " some_text-1 ")) = Normal (VString t)
            /\ processInput config (VString t) = Normal (VString t).
Proof.
apply (processInput_idempotent (lit " some_text-1 ")).
- split; [discriminate | repeat constructor].
- vm_compute. discriminate.
- exists 115. split; [right; now left | reflexivity].
Defined.

(** C2 as stated fails: a single space is in the success domain, its result
    is the empty string, and the empty string is refused. *)
Lemma processInput_space_not_idempotent :
  ~ (forall s, matches_pattern s -> str_length s <= 1000 ->
       exists t, processInput config (VString s) = Normal (VString t)
                 /\ processInput config (VString t) = Normal (VString t)).
Proof.
intros H. destruct (H [32]) as [t [H1 H2]].
- split; [discriminate | repeat constructor].
- vm_compute. discriminate.
- vm_compute in H1. injection H1 as <-. discriminate H2.
Qed.

End Sanitizer.

(* ===================================================================== *)
(** * The array transformer [processData] *)
(* ===================================================================== *)

Section Transformer.

Lemma nth_error_at {A} (h : list A) x r : nth_error (h ++ x :: r) (List.length h) = Some x.
Proof. induction h; simpl; auto. Qed.

Lemma nth_error_at1 {A} (h : list A) x y r :
  nth_error (h ++ x :: y :: r) (S (List.length h)) = Some y.
Proof. induction h; simpl; auto. Qed.

Lemma update_at {A} (h : list A) f x r :
  update (List.length h) f (h ++ x :: r) = h ++ f x :: r.
Proof. induction h; simpl; [reflexivity|]. now rewrite IHh. Qed.

Lemma update_at1 {A} (h : list A) f x y r :
  update (S (List.length h)) f (h ++ x :: y :: r) = h ++ x :: f y :: r.
Proof. 
induction h; simpl; [reflexivity|]. simpl in IHh. now rewrite IHh. Qed.

Ltac run_heap :=
  repeat first
    [ rewrite nth_error_at1 | rewrite update_at1
    | rewrite nth_error_at | rewrite update_at
    | progress cbn [settled alreadyResolved reactions pending set_heap set_timers set_jobs
                    set_clock heap clock map_cost jobs timers next_timer fst snd
                    map app] ].

Lemma processData_array cfg l w :
  processData cfg (VArray l) w = (Normal (List.length (heap w)), after_call cfg l w).
Proof.
destruct w as [clk cost h q ts nt].
unfold after_call, own_timer, transform_outcome, resolved.
unfold processData, async, processData_body, new_Promise, executor, bind,
  new_promise, setTimeout, timed_map.
cbn [Array_isArray negb slots set_heap set_timers heap clock map_cost jobs timers next_timer set_clock].
rewrite <- !app_assoc, !length_app. cbn [app List.length]. rewrite Nat.add_1_r.
destruct (Array_map double_item l) as [r|e];
  unfold clearTimeout, resolve_fn, reject_fn, resolve_with_promise, is_resolved,
    mark_resolved, settle, enqueue, modify, lookup, ret, bind;
  run_heap; rewrite app_nil_r; reflexivity.
Qed.

Lemma processData_other cfg data w :
  Array_isArray data = false ->
  processData cfg data w =
    (Normal (List.length (heap w)),
     set_heap (heap w ++ [resolved (Some (Rejected (Error "Data must be an array")))]) w).
Proof.
intros H. destruct w as [clk cost h q ts nt].
unfold processData, async, processData_body. rewrite H. cbn [negb].
unfold bind, new_promise, ret, reject_fn, is_resolved, mark_resolved, settle,
  enqueue, modify, lookup, bind.
run_heap. rewrite app_nil_r. reflexivity.
Qed.

(** ** Settled promises stay as they are *)


Lemma nth_error_update {A} (f : A -> A) (l : list A) i j :
  nth_error (update i f l) j =
    if Nat.eqb i j then option_map f (nth_error l j) else nth_error l j.
Proof.
revert i j. induction l as [|x l IH]; intros i j.
- destruct i, j; simpl; try reflexivity; now destruct (Nat.eqb _ _).
- destruct i, j; simpl; try reflexivity. apply IH.
Qed.

Lemma outcome_modify p o q f w :
  keeps f -> outcome_of p w = Some o -> outcome_of p (snd (modify q f w)) = Some o.
Proof.
unfold outcome_of, lookup, modify. cbn [snd heap set_heap].
intros Hf H. rewrite nth_error_update.
destruct (Nat.eqb q p); [|exact H].
destruct (nth_error (heap w) p) as [pr|]; [|discriminate]. simpl. now apply Hf.
Qed.

Lemma outcome_enqueue p q w : outcome_of p (snd (enqueue q w)) = outcome_of p w.
Proof. reflexivity. Qed.

Lemma outcome_settle p o q o' w :
  outcome_of p w = Some o -> outcome_of p (snd (settle q o' w)) = Some o.
Proof.
intros H. unfold settle.
destruct (lookup q w) as [[[x|] a rs]|] eqn:E; try exact H.
unfold bind. 
destruct (modify q _ w) as [u w1] eqn:E1.
rewrite outcome_enqueue.
change w1 with (snd (u, w1)). rewrite <- E1.
unfold outcome_of, lookup, modify in *. cbn [snd heap set_heap].
rewrite nth_error_update. destruct (Nat.eqb q p) eqn:Q; [|exact H].
apply Nat.eqb_eq in Q. subst q. rewrite E in H. discriminate.
Qed.

Lemma outcome_mark p o q w :
  outcome_of p w = Some o -> outcome_of p (snd (mark_resolved q w)) = Some o.
Proof.
apply outcome_modify. intros pr x Hx. exact Hx.
Qed.

Lemma outcome_reject p o q e w :
  outcome_of p w = Some o -> outcome_of p (snd (reject_fn q e w)) = Some o.
Proof.
intros H. unfold reject_fn. destruct (is_resolved q w); [exact H|].
unfold bind. destruct (mark_resolved q w) as [u w1] eqn:E.
apply outcome_settle. change w1 with (snd (u, w1)). rewrite <- E.
now apply outcome_mark.
Qed.

Lemma outcome_run_job p o j w :
  outcome_of p w = Some o -> outcome_of p (snd (run_job j w)) = Some o.
Proof.
intros H. destruct j as [t s|t o']; simpl.
- destruct (lookup s w) as [[[x|] a rs]|]; try exact H.
  apply outcome_modify; [|exact H]. intros pr y Hy. exact Hy.
- now apply outcome_settle.
Qed.

Lemma outcome_step p o w w' :
  step w w' -> outcome_of p w = Some o -> outcome_of p w' = Some o.
Proof.
intros Hs H. destruct Hs as [w w' Hj | w t Hq Hin Hd | w d Hq Hd].
- unfold job_step in Hj. destruct (jobs w) as [|j q]; [discriminate|].
  injection Hj as <-. apply outcome_run_job. exact H.
- unfold fire, run_callback. destruct (handler t) as [q e].
  apply outcome_reject. exact H.
- exact H.
Qed.

Lemma outcome_steps p o w w' :
  steps w w' -> outcome_of p w = Some o -> outcome_of p w' = Some o.
Proof.
induction 1 as [w | w1 w2 w3 H12 _ IH]; intros H; [exact H|].
apply IH. now apply (outcome_step p o w1).
Qed.

Lemma first_job cfg l w :
  jobs w = [] -> job_step (after_call cfg l w) = Some (in_flight cfg l w).
Proof.
intros Hq. unfold job_step, after_call, in_flight. cbn [jobs]. rewrite Hq. cbn [app].
unfold run_job, lookup, enqueue. cbn [heap set_jobs jobs snd].
rewrite nth_error_at1. cbn [resolved settled snd set_jobs jobs app clock map_cost heap timers next_timer].
reflexivity.
Qed.

Lemma second_job cfg l w :
  job_step (in_flight cfg l w) = Some (delivered cfg l w).
Proof.
unfold job_step, in_flight, delivered, after_call. cbn [jobs set_jobs].
unfold run_job, settle, lookup, bind, modify, enqueue.
cbn [heap set_jobs set_heap jobs snd clock map_cost timers next_timer].
rewrite nth_error_at. unfold resolved at 1.
cbn [heap set_jobs set_heap jobs snd clock map_cost timers next_timer map app].
rewrite update_at. reflexivity.
Qed.

Lemma no_job cfg l w : job_step (delivered cfg l w) = None.
Proof. reflexivity. Qed.

Lemma run_two_jobs cfg l w :
  jobs w = [] -> run_jobs 2 (after_call cfg l w) = delivered cfg l w.
Proof.
intros Hq. simpl. now rewrite (first_job cfg l w Hq), second_job.
Qed.

Lemma delivered_outcome cfg l w :
  outcome_of (List.length (heap w)) (delivered cfg l w) = Some (transform_outcome l).
Proof.
unfold outcome_of, lookup, delivered. cbn [heap set_jobs set_heap].
now rewrite nth_error_at.
Qed.

Lemma in_flight_outcome cfg l w :
  outcome_of (List.length (heap w)) (in_flight cfg l w) = None.
Proof.
unfold outcome_of, lookup, in_flight, after_call. cbn [heap set_jobs set_heap].
now rewrite nth_error_at.
Qed.

Lemma after_call_outcome cfg l w :
  outcome_of (List.length (heap w)) (after_call cfg l w) = None.
Proof.
unfold outcome_of, lookup, after_call. cbn [heap set_jobs set_heap].
now rewrite nth_error_at.
Qed.

Lemma step_with_job w w1 w' : job_step w = Some w1 -> step w w' -> w' = w1.
Proof.
intros Hj Hs. destruct Hs as [w w' Hj' | w t Hq _ _ | w d Hq _].
- congruence.
- unfold job_step in Hj. rewrite Hq in Hj. discriminate.
- unfold job_step in Hj. rewrite Hq in Hj. discriminate.
Qed.

(** What the event loop can reach after the call on an array. *)

Lemma reach_after_call cfg l w w' :
  jobs w = [] -> steps (after_call cfg l w) w' ->
  w' = after_call cfg l w \/ w' = in_flight cfg l w \/ steps (delivered cfg l w) w'.
Proof.
intros Hq H. inversion H as [|? w2 ? H1 H2]; subst; [now left|].
apply (step_with_job _ _ _ (first_job cfg l w Hq)) in H1. subst w2.
inversion H2 as [|? w3 ? H3 H4]; subst; [right; now left|].
apply (step_with_job _ _ _ (second_job cfg l w)) in H3. subst w3.
right; now right.
Qed.

Lemma Array_map_error l e :
  Array_map double_item l = Throw e -> e = Error "All items must be numbers".
Proof.
induction l as [|[v|] l IH]; simpl.
- discriminate.
- unfold double_item at 1. destruct (negb (typeof v =? "number")%string).
  + now intros [= <-].
  + destruct (Array_map double_item l); [discriminate|]. intros [= <-]. now apply IH.
- destruct (Array_map double_item l); [discriminate|]. intros [= <-]. now apply IH.
Qed.

Lemma transform_outcome_not_timeout l :
  transform_outcome l <> Rejected (Error "Processing timeout").
Proof.
unfold transform_outcome. destruct (Array_map double_item l) as [r|e] eqn:E.
- discriminate.
- apply Array_map_error in E. subst e. discriminate.
Qed.

Lemma not_array_or_array data :
  Array_isArray data = false \/ exists l, data = VArray l.
Proof. destruct data; try (now left). right. now eexists. Qed.

(** ** Doubling is exact *)

Lemma two_repr : two = S754_finite false 4503599627370496 (-51).
Proof. reflexivity. Qed.

Lemma times_2_52 m : (m * 4503599627370496)%positive = Pos.iter xO m 52%positive.
Proof. rewrite Pos.mul_comm. reflexivity. Qed.

Lemma digits_shift m : digits2_pos (Pos.iter xO m 52) = (digits2_pos m + 52)%positive.
Proof. cbn. lia. Qed.

Lemma shr_52 m :
  iter_pos shr_1 52 {| shr_m := Zpos (Pos.iter xO m 52); shr_r := false; shr_s := false |}
  = {| shr_m := Zpos m; shr_r := false; shr_s := false |}.
Proof. reflexivity. Qed.

Lemma shr_51 m :
  iter_pos shr_1 51 {| shr_m := Zpos (Pos.iter xO m 52); shr_r := false; shr_s := false |}
  = {| shr_m := Zpos m~0; shr_r := false; shr_s := false |}.
Proof. reflexivity. Qed.

(** A valid binary64 significand has 53 digits, or fewer at the least
    exponent. *)
Lemma valid_cases m e :
  bounded prec emax m e = true ->
  (digits2_pos m = 53%positive /\ -1074 <= e <= 971)
  \/ ((digits2_pos m < 53)%positive /\ e = -1074).
Proof.
unfold bounded, canonical_mantissa, fexp, emin, prec, emax.
intros H. apply andb_true_iff in H. destruct H as [H1 H2].
apply Z.eqb_eq in H1. apply Z.leb_le in H2. 
destruct (Pos.eq_dec (digits2_pos m) 53) as [E|N]; [left | right]; lia.
Qed.

Lemma double_exact x :
  valid_binary prec emax x = true -> num_mul x two = doubled x.
Proof.
destruct x as [s|s| |s m e];
  try (intros _; unfold num_mul; rewrite two_repr; cbn [SFmul doubled];
       now rewrite ?xorb_false_r).
cbn [valid_binary]. intros Hv.
rewrite two_repr. unfold num_mul, SFmul, doubled.
rewrite times_2_52, xorb_false_r.
unfold binary_round_aux, shr_fexp.
unfold Zdigits2 at 1. rewrite digits_shift.
destruct (valid_cases m e Hv) as [[Hd He] | [Hd He]].
- rewrite Hd. cbn [Pos.eqb].
  replace (fexp prec emax (Z.pos (53 + 52) + (e + -51)) - (e + -51)) with 52
    by (unfold fexp, emin, prec, emax; lia).
  unfold shr at 1. cbn [shr_record_of_loc]. rewrite shr_52.
  cbn [shr_m loc_of_shr_record round_nearest_even Zdigits2]. rewrite Hd.
  replace (fexp prec emax (53 + (e + -51 + 52)) - (e + -51 + 52)) with 0
    by (unfold fexp, emin, prec, emax; lia).
  cbn [shr shr_record_of_loc shr_m].
  replace (e + -51 + 52) with (e + 1) by lia.
  unfold emax, prec. change (1024 - 53) with 971.
  destruct (Z.ltb_spec e 971); destruct (Z.leb_spec (e + 1) 971); try lia; reflexivity.
- subst e. replace ((digits2_pos m =? 53)%positive) with false
    by (symmetry; apply Pos.eqb_neq; lia).
  replace (fexp prec emax (Z.pos (digits2_pos m + 52) + (-1074 + -51)) - (-1074 + -51)) with 51
    by (unfold fexp, emin, prec, emax; lia).
  unfold shr at 1. cbn [shr_record_of_loc]. rewrite shr_51.
  cbn [shr_m loc_of_shr_record round_nearest_even Zdigits2 digits2_pos].
  replace (fexp prec emax (Z.pos (Pos.succ (digits2_pos m)) + (-1074 + -51 + 51)) - (-1074 + -51 + 51)) with 0
    by (unfold fexp, emin, prec, emax; lia).
  cbn [shr shr_record_of_loc shr_m]. reflexivity.
Qed.

Lemma Array_map_numbers (ns : list (option number)) :
  Array_map double_item (map (option_map VNumber) ns)
  = Normal (map (option_map (fun n => VNumber (num_mul n two))) ns).
Proof.
induction ns as [|[n|] ns IH]; simpl; [reflexivity | |]; now rewrite IH.
Qed.

Lemma typeof_number v :
  (typeof v =? "number")%string = true <-> exists n, v = VNumber n.
Proof.
split.
- destruct v; try discriminate. intros _. now eexists.
- intros [n ->]. reflexivity.
Qed.

Lemma Array_map_foreign l :
  (exists v, In (Some v) l /\ forall n, v <> VNumber n) ->
  Array_map double_item l = Throw (Error "All items must be numbers").
Proof.
intros [v [Hin Hv]]. induction l as [|x l IH]; [contradiction|].
destruct (Array_map double_item (x :: l)) as [r|e] eqn:E.
- exfalso. simpl in E. destruct Hin as [-> | Hin].
  + unfold double_item in E at 1.
    destruct (typeof v =? "number")%string eqn:T.
    * apply typeof_number in T. destruct T as [n ->]. now apply (Hv n).
    * discriminate E.
  + specialize (IH Hin). rewrite IH in E.
    destruct x as [y|]; [destruct (double_item y)|]; discriminate E.
- f_equal. now apply (Array_map_error (x :: l)).
Qed.

Lemma outcome_after_other (w : world) :
  outcome_of (List.length (heap w))
    (set_heap (heap w ++ [resolved (Some (Rejected (Error "Data must be an array")))]) w)
  = Some (Rejected (Error "Data must be an array")).
Proof.
unfold outcome_of, lookup. cbn [heap set_heap]. now rewrite nth_error_at.
Qed.

(** ** The claims on [processData] *)

Lemma own_timer_cleared cfg l w t :
  In t (timers (after_call cfg l w)) -> In t (timers w).
Proof.
unfold after_call. cbn [timers]. rewrite filter_app. cbn [filter own_timer timer_id].
rewrite Nat.eqb_refl. cbn [negb]. rewrite app_nil_r.
intros H. apply filter_In in H. now destruct H.
Qed.

(** C1, on the code.  Whatever the configured timeout (0 included), the
    argument and the time the transform takes, a call of [processData] made
    with no micro-task waiting leaves no timer of its own behind and returns
    a promise that no run of the event loop ever rejects with Timeout: the
    transform runs to its end inside the executor, which clears the timer
    before the event loop can fire it. *)
Theorem processData_never_times_out (cfg : Config) (data : value) (w : world) :
  jobs w = [] ->
  exists p w1, processData cfg data w = (Normal p, w1)
    /\ (forall t, In t (timers w1) -> In t (timers w))
    /\ forall w', steps w1 w' ->
         outcome_of p w' <> Some (Rejected (Error "Processing timeout")).
Proof.
intros Hq. destruct (not_array_or_array data) as [H | [l ->]].
- eexists _, _. split; [apply (processData_other cfg data w H)|].
  split; [trivial|]. intros w' Hs.
  rewrite (outcome_steps _ _ _ _ Hs (outcome_after_other w)). discriminate.
- eexists _, _. split; [apply processData_array|].
  split; [apply own_timer_cleared|].
  intros w' Hs. destruct (reach_after_call cfg l w w' Hq Hs) as [-> | [-> | Hd]].
  + now rewrite after_call_outcome.
  + now rewrite in_flight_outcome.
  + rewrite (outcome_steps _ _ _ _ Hd (delivered_outcome cfg l w)).
    intros [= E]. now apply (transform_outcome_not_timeout l).
Qed.

Lemma processData_never_times_out_witness :
  exists p w1,
    processData (with_timeout 0) (nums (repeat 7 1000))
                (boot (fun n => 1000 * Z.of_nat n)) = (Normal p, w1)
    /\ (forall t, In t (timers w1) -> In t (timers (boot (fun n => 1000 * Z.of_nat n))))
    /\ forall w', steps w1 w' ->
         outcome_of p w' <> Some (Rejected (Error "Processing timeout")).
Proof.
apply (processData_never_times_out (with_timeout 0) (nums (repeat 7 1000))
         (boot (fun n => 1000 * Z.of_nat n))).
reflexivity.
Defined.

(** With the timeout set to 0 and a transform of 1000 elements that takes
    1000 seconds, the timer is gone when the call returns and the promise
    is fulfilled with the doubled array. *)
Example processData_zero_timeout :
  let w := boot (fun n => 1000 * Z.of_nat n) in
  let w1 := snd (processData (with_timeout 0) (nums (repeat 7 1000)) w) in
  clock w1 = 1000000
  /\ timers w1 = []
  /\ outcome_of 0%nat (run_jobs 2 w1) = Some (Fulfilled (nums (repeat 14 1000))).
Proof. vm_compute. repeat split. Qed.

(** The holes of a sparse array are no elements: [map] skips them. *)
Example processData_sparse :
  let data := VArray [Some (VNumber (of_Z 1)); None; Some (VNumber (of_Z 3))] in
  let w1 := snd (processData config data (boot (fun _ => 0))) in
  outcome_of 0%nat (run_jobs 2 w1)
  = Some (Fulfilled (VArray [Some (VNumber (of_Z 2)); None; Some (VNumber (of_Z 6))])).
Proof. vm_compute. reflexivity. Qed.

(** C7. On an array whose elements are all numbers (holes allowed), the
    promise returned by [processData] is fulfilled, once the two micro-tasks
    of the call have run, with an array of the same length whose element at
    each index is the input element times two, a hole staying a hole; the
    product is the exact double of every binary64 number; the promise keeps
    that value whatever the event loop does next. *)
Theorem processData_doubles (cfg : Config) (ns : list (option number)) (w : world) :
  jobs w = [] ->
  exists p w1 result,
    processData cfg (VArray (map (option_map VNumber) ns)) w = (Normal p, w1)
    /\ outcome_of p (run_jobs 2 w1) = Some (Fulfilled (VArray result))
    /\ List.length result = List.length ns
    /\ (forall i, nth_error result i
                  = option_map (option_map (fun n => VNumber (num_mul n two)))
                               (nth_error ns i))
    /\ (forall n, valid_binary prec emax n = true -> num_mul n two = doubled n)
    /\ (forall w', steps (run_jobs 2 w1) w' ->
                   outcome_of p w' = Some (Fulfilled (VArray result))).
Proof.
intros Hq.
exists (List.length (heap w)), (after_call cfg (map (option_map VNumber) ns) w),
  (map (option_map (fun n => VNumber (num_mul n two))) ns).
assert (E : outcome_of (List.length (heap w))
              (run_jobs 2 (after_call cfg (map (option_map VNumber) ns) w))
            = Some (Fulfilled (VArray (map (option_map (fun n => VNumber (num_mul n two))) ns)))).
{ rewrite (run_two_jobs _ _ _ Hq), delivered_outcome.
  unfold transform_outcome. now rewrite Array_map_numbers. }
split; [apply processData_array|]. split; [exact E|].
split; [apply length_map|]. split; [intros i; apply nth_error_map|].
split; [exact double_exact|].
intros w' Hs. exact (outcome_steps _ _ _ _ Hs E).
Qed.

Lemma processData_doubles_witness :
  exists p w1,
    processData config (nums [1; 2; 3; 4; 5]) (boot (fun _ => 0)) = (Normal p, w1)
    /\ outcome_of p (run_jobs 2 w1) = Some (Fulfilled (nums [2; 4; 6; 8; 10])).
Proof.
destruct (processData_doubles config (map (fun z => Some (of_Z z)) [1; 2; 3; 4; 5])
            (boot (fun _ => 0)) eq_refl)
  as [p [w1 [result [H1 [H2 _]]]]].
exists p, w1. split; [exact H1|].
vm_compute in H1. injection H1 as <- <-. vm_compute. reflexivity.
Defined.

(** C8. An argument that is not an array makes the promise of the call
    rejected with InvalidArgument as soon as the call returns; an array
    with an element that is not a number makes it rejected with TypeError
    once the two micro-tasks of the call have run; in both cases the
    promise stays rejected, so that no result array is ever delivered. *)
Theorem processData_rejects (cfg : Config) (data : value) (w : world) :
  jobs w = [] ->
  exists p w1,
    processData cfg data w = (Normal p, w1)
    /\ (Array_isArray data = false ->
        forall w', steps w1 w' ->
          outcome_of p w' = Some (Rejected (Error "Data must be an array")))
    /\ (forall l, data = VArray l ->
        (exists v, In (Some v) l /\ forall n, v <> VNumber n) ->
        forall w', steps (run_jobs 2 w1) w' ->
          outcome_of p w' = Some (Rejected (Error "All items must be numbers"))).
Proof.
intros Hq. destruct (not_array_or_array data) as [H | [l ->]].
- eexists _, _. split; [apply (processData_other cfg data w H)|]. split.
  + intros _ w' Hs. exact (outcome_steps _ _ _ _ Hs (outcome_after_other w)).
  + intros l ->. discriminate H.
- eexists _, _. split; [apply processData_array|]. split.
  + discriminate.
  + intros l' [= <-] Hv w' Hs.
    apply (outcome_steps _ _ _ _ Hs).
    rewrite (run_two_jobs _ _ _ Hq), delivered_outcome.
    unfold transform_outcome. now rewrite (Array_map_foreign _ Hv).
Qed.

Lemma processData_rejects_witness :
  (exists p w1, processData config (VString (lit "abc")) (boot (fun _ => 0)) = (Normal p, w1)
     /\ outcome_of p w1 = Some (Rejected (Error "Data must be an array")))
  /\ (exists p w1,
        processData config (VArray [Some (VNumber (of_Z 1)); Some (VString (lit "x"));
                                    Some (VNumber (of_Z 3))]) (boot (fun _ => 0))
        = (Normal p, w1)
        /\ outcome_of p (run_jobs 2 w1) = Some (Rejected (Error "All items must be numbers"))).
Proof.
split.
- destruct (processData_rejects config (VString (lit "abc")) (boot (fun _ => 0)) eq_refl)
    as [p [w1 [H1 [H2 _]]]].
  exists p, w1. split; [exact H1|]. apply (H2 eq_refl). constructor.
- destruct (processData_rejects config
              (VArray [Some (VNumber (of_Z 1)); Some (VString (lit "x")); Some (VNumber (of_Z 3))])
              (boot (fun _ => 0)) eq_refl)
    as [p [w1 [H1 [_ H3]]]].
  exists p, w1. split; [exact H1|]. apply (H3 _ eq_refl); [|constructor].
  exists (VString (lit "x")). split; [right; now left | discriminate].
Defined.

(** C4, as the code has it.  A call of [processData] never raises: it always
    completes normally with a promise, and an argument that is not an array
    rejects that promise with InvalidArgument; the same kind of argument
    makes [processInput] and [safeEval], which return no promise, raise
    InvalidArgument at once. *)
Theorem processData_never_raises (cfg : Config) (v : value) (w : world) :
  (exists p, fst (processData cfg v w) = Normal p)
  /\ ((forall s, v <> VString s) ->
        processInput cfg v = Throw (Error "Input must be a non-empty string")
        /\ forall room, safeEval room v = Done (Throw (Error "Expression must be a string")))
  /\ (Array_isArray v = false ->
        exists p, fst (processData cfg v w) = Normal p
          /\ outcome_of p (snd (processData cfg v w))
             = Some (Rejected (Error "Data must be an array"))).
Proof.
split; [|split].
- destruct (not_array_or_array v) as [H | [l ->]].
  + rewrite (processData_other cfg v w H). now eexists.
  + rewrite processData_array. now eexists.
- intros Hs. split.
  + unfold processInput. destruct v; try reflexivity; simpl.
    * now destruct b.
    * now destruct n.
    * now destruct (z =? 0).
    * exfalso. now apply (Hs s).
  + intros room. unfold safeEval. destruct v; try reflexivity; simpl.
    * now destruct b.
    * now destruct n.
    * now destruct (z =? 0).
    * exfalso. now apply (Hs s).
- intros H. rewrite (processData_other cfg v w H). eexists. split; [reflexivity|].
  apply outcome_after_other.
Qed.

Lemma processData_never_raises_witness :
  processInput config VUndefined = Throw (Error "Input must be a non-empty string")
  /\ (forall room, safeEval room VUndefined = Done (Throw (Error "Expression must be a string")))
  /\ exists p, fst (processData config VUndefined (boot (fun _ => 0))) = Normal p
       /\ outcome_of p (snd (processData config VUndefined (boot (fun _ => 0))))
          = Some (Rejected (Error "Data must be an array")).
Proof.
destruct (processData_never_raises config VUndefined (boot (fun _ => 0))) as [_ [H2 H3]].
destruct H2 as [A B]; [discriminate|].
split; [exact A|]. split; [exact B|]. now apply H3.
Defined.

(** C4 as stated fails: called on [undefined], [processData] does not raise
    InvalidArgument; it returns a promise. *)
Lemma processData_invalid_argument_deferred :
  ~ (forall data w, Array_isArray data = false ->
       fst (processData config data w) = Throw (Error "Data must be an array")).
Proof.
intros H. specialize (H VUndefined (boot (fun _ => 0)) eq_refl). discriminate H.
Qed.

End Transformer.

(* ===================================================================== *)
(** * The evaluator [safeEval] *)
(* ===================================================================== *)

Section Evaluator.

Lemma class_expression c :
  class_matches (char_class expression_chars) c = expression_char c.
Proof.
unfold class_matches, expression_char, isDigit. simpl.
now rewrite orb_false_r, !orb_assoc.
Qed.

Lemma test_expression s :
  RegExp_test expression_chars s = true
  <-> s <> [] /\ Forall (fun c => expression_char c = true) s.
Proof.
unfold RegExp_test. destruct s as [|c r].
- split; [discriminate | intros [H _]; contradiction].
- rewrite forallb_forall, Forall_forall. split.
  + intros H. split; [discriminate|].
    intros x Hx. rewrite <- class_expression. now apply H.
  + intros [_ H] x Hx. rewrite class_expression. now apply H.
Qed.

Lemma safeEval_string room s :
  safeEval room (VString s) =
    match s with
    | [] => Done (Throw (Error "Expression must be a string"))
    | _ =>
        if RegExp_test expression_chars s then
          match new_Function room (lit "return " ++ s) with
          | Done (Normal f) =>
              match call f with
              | Normal v => Done (Normal v)
              | Throw _ => Done (Throw (Error "Invalid mathematical expression"))
              end
          | Done (Throw _) => Done (Throw (Error "Invalid mathematical expression"))
          | Unsupported => Unsupported
          end
        else Done (Throw (Error "Invalid characters in expression"))
    end.
Proof.
unfold safeEval. destruct s as [|c r]; [reflexivity|].
cbn [truthy typeof negb orb chars].
change (("string" =? "string")%string) with true. cbn [negb orb].
destruct (RegExp_test expression_chars (c :: r)); reflexivity.
Qed.

Lemma safeEval_not_text room v :
  (forall s, v <> VString s) \/ v = VString [] ->
  safeEval room v = Done (Throw (Error "Expression must be a string")).
Proof.
intros [H | ->]; [|reflexivity].
unfold safeEval. destruct v; try reflexivity; simpl.
- now destruct b.
- now destruct n.
- now destruct (z =? 0).
- exfalso. now apply (H s).
Qed.

Lemma safeEval_foreign room s :
  (exists c, In c s /\ expression_char c = false) ->
  safeEval room (VString s) = Done (Throw (Error "Invalid characters in expression")).
Proof.
intros [c [Hin Hc]]. rewrite safeEval_string.
destruct s as [|x r]; [contradiction|].
destruct (RegExp_test expression_chars (x :: r)) eqn:E; [|reflexivity].
apply test_expression in E. destruct E as [_ E].
rewrite Forall_forall in E. specialize (E c Hin). congruence.
Qed.

Lemma tokens_return s :
  tokens (lit "return " ++ s) = emit TReturn false (lex Between false false s).
Proof. reflexivity. Qed.

Lemma lex_blank s nl operand :
  blank s -> lex Between nl operand s = Done (Normal []).
Proof.
intros H. revert nl. induction H as [|c r Hc _ IH]; intros nl; [reflexivity|].
cbn [lex]. destruct (isLineTerminator c); [apply IH|]. rewrite Hc. apply IH.
Qed.


End Evaluator.

(* ===================================================================== *)
(** * The parser on sums, terms and factors *)
(* ===================================================================== *)

Section Parser.

Local Open Scope nat_scope.

Lemma parse_additive_S f ts :
  parse_additive (S f) ts =
    match parse_multiplicative f ts with
    | Parsed l r => additive_rest f l r
    | other => other
    end.
Proof. reflexivity. Qed.

Lemma parse_multiplicative_S f ts :
  parse_multiplicative (S f) ts =
    match parse_unary f ts with
    | Parsed l r => multiplicative_rest f l r
    | other => other
    end.
Proof. reflexivity. Qed.

Lemma additive_rest_end f l rest :
  ends_term rest = true ->
  match rest with
  | {| tok := TPlus |} :: _ | {| tok := TMinus |} :: _ => False
  | _ => True
  end ->
  additive_rest (S f) l rest = Parsed l rest.
Proof.
destruct rest as [|[[] nl] r]; simpl; intros; try reflexivity; contradiction.
Qed.

Lemma additive_rest_plus f l nl r :
  additive_rest (S f) l (mk TPlus nl :: r) =
    match parse_multiplicative f r with
    | Parsed e r' => additive_rest f (EBinary Add l e) r'
    | other => other
    end.
Proof. reflexivity. Qed.

Lemma additive_rest_minus f l nl r :
  additive_rest (S f) l (mk TMinus nl :: r) =
    match parse_multiplicative f r with
    | Parsed e r' => additive_rest f (EBinary Sub l e) r'
    | other => other
    end.
Proof. reflexivity. Qed.

Lemma multiplicative_rest_end f l rest :
  ends_term rest = true -> multiplicative_rest (S f) l rest = Parsed l rest.
Proof.
destruct rest as [|[[] nl] r]; simpl; intros; try reflexivity; discriminate.
Qed.

Lemma multiplicative_rest_star f l nl r :
  multiplicative_rest (S f) l (mk TStar nl :: r) =
    match parse_unary f r with
    | Parsed e r' => multiplicative_rest f (EBinary Mul l e) r'
    | other => other
    end.
Proof. reflexivity. Qed.

Lemma multiplicative_rest_slash f l nl r :
  multiplicative_rest (S f) l (mk TSlash nl :: r) =
    match parse_unary f r with
    | Parsed e r' => multiplicative_rest f (EBinary Div l e) r'
    | other => other
    end.
Proof. reflexivity. Qed.

Lemma call_rest_end f e rest :
  ends_factor rest = true -> call_rest (S f) e rest = Parsed e rest.
Proof.
destruct rest as [|[[] nl] r]; simpl; intros; try reflexivity; discriminate.
Qed.

Lemma parse_unary_literal f n nl rest :
  ends_factor rest = true ->
  parse_unary (S (S f)) (mk (TNum n) nl :: rest) = Parsed (ENum n) rest.
Proof.
intros H. cbn [parse_unary mk tok parse_primary]. now apply call_rest_end.
Qed.

Lemma parse_unary_group f nl r :
  parse_unary (S (S f)) (mk TLParen nl :: r) =
    match parse_additive f r with
    | Parsed e r' =>
        match closing r' with
        | Some r'' => call_rest (S f) (EParen e) r''
        | None => Malformed
        end
    | other => other
    end.
Proof.
cbn [parse_unary mk tok parse_primary].
destruct (parse_additive f r) as [e r'| |]; try reflexivity.
destruct (closing r'); reflexivity.
Qed.

Lemma derives_nonempty lv ts v : derives lv ts v -> (1 <= List.length ts)%nat.
Proof.
induction 1; simpl; rewrite ?length_app; simpl; lia.
Qed.

Lemma ends_term_factor rest : ends_term rest = true -> ends_factor rest = true.
Proof. destruct rest as [|[[] nl] r]; simpl; congruence. Qed.

Lemma derives_parses lv ts v : derives lv ts v -> parses lv ts v.
Proof.
induction 1 as
  [ n nl
  | ts v nl nl' Hd IH
  | ts v Hd IH
  | ts1 ts2 v1 v2 nl Hd1 IH1 Hd2 IH2
  | ts1 ts2 v1 v2 nl Hd1 IH1 Hd2 IH2
  | ts v Hd IH
  | ts1 ts2 v1 v2 nl Hd1 IH1 Hd2 IH2
  | ts1 ts2 v1 v2 nl Hd1 IH1 Hd2 IH2 ]; cbn [parses] in *.
- (* literal *)
  exists (ENum n). split; [reflexivity|]. intros f rest Hf Hr. simpl in Hf.
  destruct f as [|[|f]]; try lia. now apply parse_unary_literal.
- (* group *)
  destruct IH as [e [k [He [Hk IH]]]].
  exists (EParen e). split; [exact He|]. intros f rest Hf Hr.
  simpl in Hf. rewrite length_app in Hf. simpl in Hf.
  destruct f as [|[|f]]; try lia.
  simpl app. rewrite <- app_assoc. simpl app.
  rewrite parse_unary_group, IH; [| lia | reflexivity].
  destruct (f - k) as [|g] eqn:G; [lia|].
  rewrite additive_rest_end; [| reflexivity | exact I].
  cbn [closing mk tok]. now apply call_rest_end.
- (* a factor is a term *)
  destruct IH as [e [He IH]].
  pose proof (derives_nonempty _ _ _ Hd) as Hn.
  exists e, 1%nat. split; [exact He|]. split; [exact Hn|]. intros f rest Hf Hr.
  destruct f as [|f]; [lia|].
  rewrite parse_multiplicative_S, IH; [| lia | exact Hr].
  now rewrite Nat.sub_succ, Nat.sub_0_r.
- (* product *)
  destruct IH1 as [e1 [k1 [He1 [Hk1 IH1]]]]. destruct IH2 as [e2 [He2 IH2]].
  exists (EBinary Mul e1 e2), (S k1).
  split; [simpl; now rewrite He1, He2|].
  split; [rewrite length_app; simpl; lia|].
  intros f rest Hf Hr. rewrite length_app in Hf. simpl in Hf.
  rewrite <- app_assoc. simpl app.
  rewrite IH1; [| lia | reflexivity].
  destruct (f - k1) as [|g] eqn:G; [lia|].
  rewrite multiplicative_rest_star, IH2; [| lia | exact Hr].
  f_equal. lia.
- (* quotient *)
  destruct IH1 as [e1 [k1 [He1 [Hk1 IH1]]]]. destruct IH2 as [e2 [He2 IH2]].
  exists (EBinary Div e1 e2), (S k1).
  split; [simpl; now rewrite He1, He2|].
  split; [rewrite length_app; simpl; lia|].
  intros f rest Hf Hr. rewrite length_app in Hf. simpl in Hf.
  rewrite <- app_assoc. simpl app.
  rewrite IH1; [| lia | reflexivity].
  destruct (f - k1) as [|g] eqn:G; [lia|].
  rewrite multiplicative_rest_slash, IH2; [| lia | exact Hr].
  f_equal. lia.
- (* a term is a sum *)
  destruct IH as [e [k [He [Hk IH]]]].
  pose proof (derives_nonempty _ _ _ Hd) as Hn.
  exists e, 1%nat. split; [exact He|]. split; [exact Hn|]. intros f rest Hf Hr.
  destruct f as [|f]; [lia|].
  rewrite parse_additive_S, IH; [| lia | now apply ends_term_factor].
  destruct (f - k) as [|g] eqn:G; [lia|].
  rewrite multiplicative_rest_end; [|exact Hr].
  now rewrite Nat.sub_succ, Nat.sub_0_r.
- (* sum *)
  destruct IH1 as [e1 [k1 [He1 [Hk1 IH1]]]]. destruct IH2 as [e2 [k2 [He2 [Hk2 IH2]]]].
  exists (EBinary Add e1 e2), (S k1).
  split; [simpl; now rewrite He1, He2|].
  split; [rewrite length_app; simpl; lia|].
  intros f rest Hf Hr. rewrite length_app in Hf. simpl in Hf.
  rewrite <- app_assoc. simpl app.
  rewrite IH1; [| lia | reflexivity].
  destruct (f - k1) as [|g] eqn:G; [lia|].
  rewrite additive_rest_plus, IH2; [| lia | now apply ends_term_factor].
  destruct (g - k2) as [|g'] eqn:G'; [lia|].
  rewrite multiplicative_rest_end; [|exact Hr].
  f_equal. lia.
- (* difference *)
  destruct IH1 as [e1 [k1 [He1 [Hk1 IH1]]]]. destruct IH2 as [e2 [k2 [He2 [Hk2 IH2]]]].
  exists (EBinary Sub e1 e2), (S k1).
  split; [simpl; now rewrite He1, He2|].
  split; [rewrite length_app; simpl; lia|].
  intros f rest Hf Hr. rewrite length_app in Hf. simpl in Hf.
  rewrite <- app_assoc. simpl app.
  rewrite IH1; [| lia | reflexivity].
  destruct (f - k1) as [|g] eqn:G; [lia|].
  rewrite additive_rest_minus, IH2; [| lia | now apply ends_term_factor].
  destruct (g - k2) as [|g'] eqn:G'; [lia|].
  rewrite multiplicative_rest_end; [|exact Hr].
  f_equal. lia.
Qed.

Lemma parse_expression_sum ts v :
  derives Sum ts v ->
  exists e, eval e = Normal v /\ parse_expression ts = Parsed e [].
Proof.
intros H. destruct (derives_parses _ _ _ H) as [e [k [He [Hk Hp]]]].
exists e. split; [exact He|]. unfold parse_expression, enough.
rewrite <- (app_nil_r ts) at 2. rewrite Hp; [| lia | reflexivity].
destruct (6 * S (List.length ts) - k) as [|g] eqn:G; [lia|].
now apply additive_rest_end.
Qed.

End Parser.

(* ===================================================================== *)
(** * The claims on [safeEval] *)
(* ===================================================================== *)

Section Arithmetic.

Lemma derives_no_return lv ts v : derives lv ts v -> existsb is_return ts = false.
Proof.
induction 1; cbn [existsb mk is_return tok orb]; rewrite ?existsb_app;
  cbn [existsb mk is_return tok orb];
  repeat match goal with H : existsb _ _ = false |- _ => rewrite H end;
  reflexivity.
Qed.

Lemma same_line_continues ts : same_line ts -> statement_ends ts = false.
Proof. destruct ts as [|t r]; simpl; [contradiction | trivial]. Qed.

Lemma room_enough room ts : (nesting ts <= room)%nat -> (room <? nesting ts)%nat = false.
Proof. intros H. now apply Nat.ltb_ge. Qed.

Lemma new_Function_sum room s ts v :
  reads_as s ts -> same_line ts -> derives Sum ts v -> (nesting ts <= room)%nat ->
  exists e, eval e = Normal v
            /\ new_Function room (lit "return " ++ s) = Done (Normal (Returns (Some e))).
Proof.
intros Hr Hl Hd Hn. destruct (parse_expression_sum _ _ Hd) as [e [He Hp]].
exists e. split; [exact He|]. unfold new_Function. rewrite Hr.
cbn [mk tok].
rewrite (derives_no_return _ _ _ Hd), (room_enough _ _ Hn), (same_line_continues _ Hl), Hp.
reflexivity.
Qed.

(** An engine with room for a text gives it what the engine with just that
    room gives it. *)
Lemma safeEval_room room s :
  (depth_of s <= room)%nat ->
  safeEval room (VString s) = safeEval (depth_of s) (VString s).
Proof.
intros H. rewrite !safeEval_string. destruct s as [|c r]; [reflexivity|].
destruct (RegExp_test expression_chars (c :: r)); [|reflexivity].
unfold new_Function. unfold depth_of in *.
destruct (tokens (lit "return " ++ c :: r)) as [[[|[t nl] ts]|e]|]; try reflexivity.
destruct t; try reflexivity.
destruct (existsb is_return ts); [reflexivity|].
now rewrite (room_enough _ _ H), Nat.ltb_irrefl.
Qed.

Ltac on_every_engine d :=
  let room := fresh "room" in
  intros room; intros;
  rewrite (safeEval_room room);
  [ replace (depth_of _) with d by (vm_compute; reflexivity); vm_compute; reflexivity
  | replace (depth_of _) with d by (vm_compute; reflexivity); lia ].




(** The room of the engine bounds the nesting.  With room for two levels,
    two nested parentheses pass and three do not; a prefix operator takes a
    level as a parenthesis does; parentheses side by side take one. *)
Example safeEval_too_deep :
  safeEval 2 (VString (lit "((1))")) = Done (Normal (VNumber (of_Z 1)))
  /\ safeEval 2 (VString (lit "(((1)))"))
     = Done (Throw (Error "Invalid mathematical expression"))
  /\ safeEval 2 (VString (lit "- -(1)"))
     = Done (Throw (Error "Invalid mathematical expression"))
  /\ safeEval 2 (VString (lit "(1)+(2)+(3)")) = Done (Normal (VNumber (of_Z 6))).
Proof. repeat split; vm_compute; reflexivity. Qed.

(** The sample failures of the specification. *)
Example safeEval_dangling_operator :
  forall room,
    safeEval room (VString (lit "2 +")) = Done (Throw (Error "Invalid mathematical expression")).
Proof. on_every_engine 0%nat. Qed.

Example safeEval_alert :
  forall room,
    safeEval room (VString (lit "alert(1)")) = Done (Throw (Error "Invalid characters in expression")).
Proof.
intros room. apply safeEval_foreign. exists 97. split; [now left | reflexivity].
Qed.

(** C6, on the code.  A non-empty text of white space only passes the
    character check and holds no token at all, hence no sum, term or factor;
    yet [safeEval] returns [undefined] for it where the claim has an
    EvaluationError: [return] followed by white space is a complete
    function body. *)
Theorem safeEval_blank (room : nat) (s : js_string) :
  s <> [] -> blank s ->
  RegExp_test expression_chars s = true
  /\ reads_as s []
  /\ (forall lv v, ~ derives lv [] v)
  /\ safeEval room (VString s) = Done (Normal VUndefined).
Proof.
intros Hne Hb.
assert (Ht : RegExp_test expression_chars s = true).
{ apply test_expression. split; [exact Hne|].
  eapply Forall_impl; [|exact Hb]. intros x Hx. unfold expression_char.
  rewrite Hx. now rewrite !orb_true_r. }
assert (Hr : reads_as s []).
{ unfold reads_as. now rewrite tokens_return, (lex_blank _ _ _ Hb). }
split; [exact Ht|]. split; [exact Hr|]. split.
- intros lv v Hd. apply derives_nonempty in Hd. simpl in Hd. lia.
- rewrite safeEval_string. destruct s as [|c r]; [contradiction|].
  rewrite Ht. unfold new_Function. unfold reads_as in Hr. rewrite Hr. reflexivity.
Qed.

Lemma safeEval_blank_witness :
  RegExp_test expression_chars (lit " ") = true
  /\ reads_as (lit " ") []
  /\ (forall lv v, ~ derives lv [] v)
  /\ safeEval 0 (VString (lit " ")) = Done (Normal VUndefined).
Proof.
apply (safeEval_blank 0%nat (lit " ")); [discriminate | repeat constructor].
Defined.

End Arithmetic.

(* ===================================================================== *)
(** * Further properties of [processInput] *)
(* ===================================================================== *)

Section SanitizerMore.

Lemma upper_alphabet_upper c : allowed_char c = true -> upper_alphabet (upper_unit c) = true.
Proof.
unfold upper_unit, allowed_char, upper_alphabet.
destruct (isLower c) eqn:E.
- intros _. unfold isLower in E. unfold isUpper. to_prop. lia.
- simpl. trivial.
Qed.

Lemma processInput_only_strings v r :
  processInput config v = Normal r -> exists s, v = VString s.
Proof.
unfold processInput. destruct v; simpl; try discriminate.
- now destruct b.
- now destruct n.
- now destruct (z =? 0).
- intros _. now eexists.
Qed.

(** X1. [processInput] returns only for a string that matches the allowed
    pattern and is at most 1000 code units long, and what it returns is a
    string no longer than its argument, without white space at either end,
    made of [A-Z], digits, white space, hyphens and underscores only. *)
Theorem processInput_success_domain (v r : value) :
  processInput config v = Normal r ->
  exists s t, v = VString s /\ r = VString t
    /\ matches_pattern s /\ str_length s <= 1000
    /\ str_length t <= str_length s
    /\ starts_clean t /\ starts_clean (rev t)
    /\ Forall (fun c => upper_alphabet c = true) t.
Proof.
intros H. destruct (processInput_only_strings _ _ H) as [s ->].
rewrite processInput_string in H. destruct s as [|c s']; [discriminate|].
destruct (str_length (c :: s') >? 1000) eqn:L; [discriminate|].
destruct (RegExp_test (allowedChars config) (c :: s')) eqn:T; [|discriminate].
injection H as <-. apply test_allowed in T.
destruct (trim_spec (c :: s')) as [l [r' [_ [_ [_ [Hs He]]]]]].
exists (c :: s'), (toUpperCase (trim (c :: s'))).
repeat split; try (exact (proj1 T)); try (exact (proj2 T)).
- to_prop. lia.
- unfold str_length, toUpperCase. rewrite length_map.
  pose proof (trim_length (c :: s')). lia.
- now apply starts_clean_upper.
- rewrite rev_toUpperCase. now apply starts_clean_upper.
- unfold toUpperCase. apply Forall_map. apply trim_Forall.
  eapply Forall_impl; [|exact (proj2 T)]. apply upper_alphabet_upper.
Qed.

Lemma processInput_success_domain_witness :
  exists s t, VString (lit " a-b_1 ") = VString s /\ VString (lit "A-B_1") = VString t
    /\ matches_pattern s /\ str_length s <= 1000
    /\ str_length t <= str_length s
    /\ starts_clean t /\ starts_clean (rev t)
    /\ Forall (fun c => upper_alphabet c = true) t.
Proof.
apply (processInput_success_domain (VString (lit " a-b_1 ")) (VString (lit "A-B_1"))).
vm_compute. reflexivity.
Defined.

Lemma trimStart_upper s : trimStart (toUpperCase s) = toUpperCase (trimStart s).
Proof.
induction s as [|c s IH]; simpl; [reflexivity|].
rewrite isWhiteSpace_upper. destruct (isWhiteSpace c); [exact IH | reflexivity].
Qed.

Lemma trim_upper s : trim (toUpperCase s) = toUpperCase (trim s).
Proof.
unfold trim, trimEnd.
rewrite trimStart_upper, rev_toUpperCase, trimStart_upper, <- rev_toUpperCase.
reflexivity.
Qed.

Lemma blank_app l r : blank l -> blank r -> blank (l ++ r).
Proof. intros. apply Forall_app. now split. Qed.

Lemma trim_padded l x r : blank l -> blank r -> trim (l ++ x ++ r) = trim x.
Proof.
intros Hl Hr. symmetry. apply trimmed_of_trim.
destruct (trim_spec x) as [l' [r' [Hx [Hl' [Hr' [Hs He]]]]]].
exists (l ++ l'), (r' ++ r). repeat split; try assumption.
- rewrite Hx at 1. now rewrite <- !app_assoc.
- now apply blank_app.
- now apply blank_app.
Qed.

Lemma blank_allowed s : blank s -> Forall (fun c => allowed_char c = true) s.
Proof.
intros H. eapply Forall_impl; [|exact H]. intros c Hc. unfold allowed_char.
rewrite Hc. now rewrite !orb_true_r.
Qed.

Lemma allowed_upper_all s :
  Forall (fun c => allowed_char c = true) s ->
  Forall (fun c => allowed_char c = true) (toUpperCase s).
Proof.
intros H. unfold toUpperCase. apply Forall_map.
eapply Forall_impl; [|exact H]. apply allowed_upper.
Qed.

(** X2. White space around the text and the case of its letters do not
    count: a text that matches the allowed pattern, put in upper case and
    padded with white space on both sides within the length bound, gets the
    result of the text itself. *)
Theorem processInput_padding_and_case (l s r : js_string) :
  matches_pattern s -> blank l -> blank r ->
  str_length (l ++ toUpperCase s ++ r) <= 1000 ->
  processInput config (VString (l ++ toUpperCase s ++ r))
  = processInput config (VString s).
Proof.
intros [Hne Hs] Hl Hr Hlen.
assert (Hlen' : str_length s <= 1000).
{ unfold str_length, toUpperCase in *. rewrite !length_app, length_map in Hlen. lia. }
rewrite (processInput_value s); [| now split | exact Hlen'].
rewrite processInput_value; [| | exact Hlen].
- rewrite (trim_padded _ _ _ Hl Hr), trim_upper. now rewrite toUpperCase_idem.
- split.
  + intros E. apply app_eq_nil in E. destruct E as [_ E].
    apply app_eq_nil in E. destruct E as [E _].
    unfold toUpperCase in E. apply map_eq_nil in E. contradiction.
  + apply Forall_app. split; [now apply blank_allowed|].
    apply Forall_app. split; [now apply allowed_upper_all | now apply blank_allowed].
Qed.

Lemma processInput_padding_and_case_witness :
  processInput config (VString (lit "  " ++ toUpperCase (lit "Hello World") ++ [9; 10]))
  = processInput config (VString (lit "Hello World")).
Proof.
apply (processInput_padding_and_case (lit "  ") (lit "Hello World") [9; 10]).
- split; [discriminate | repeat constructor].
- repeat constructor.
- repeat constructor.
- vm_compute. discriminate.
Defined.

End SanitizerMore.

(* ===================================================================== *)
(** * Further properties of [safeEval] *)
(* ===================================================================== *)

Section EvaluatorMore.

(** X3. [safeEval] fails with InvalidArgument on every argument that is not
    a string and on the empty string, and with DisallowedCharacters on
    every string that holds a character other than a digit, [+ - * / ( ) .]
    and white space: such a text never reaches [Function]. *)
Theorem safeEval_refuses (room : nat) (v : value) :
  ((forall s, v <> VString s) \/ v = VString [] ->
     safeEval room v = Done (Throw (Error "Expression must be a string")))
  /\ (forall s, v = VString s ->
        (exists c, In c s /\ expression_char c = false) ->
        safeEval room v = Done (Throw (Error "Invalid characters in expression"))).
Proof.
split.
- apply safeEval_not_text.
- intros s -> H. now apply safeEval_foreign.
Qed.

Lemma safeEval_refuses_witness :
  safeEval 0 VNull = Done (Throw (Error "Expression must be a string"))
  /\ safeEval 0 (VString (lit "1; process.exit()"))
     = Done (Throw (Error "Invalid characters in expression")).
Proof.
split.
- apply (safeEval_refuses 0%nat VNull). left. discriminate.
- apply (safeEval_refuses 0%nat (VString (lit "1; process.exit()")))
    with (s := lit "1; process.exit()").
  + reflexivity.
  + exists 59. split; [right; now left | reflexivity].
Defined.

Lemma emit_after_break t rest ts :
  emit t true rest = Done (Normal ts) -> after_break ts.
Proof.
destruct rest as [[x|e]|]; simpl; try discriminate. intros [= <-]. reflexivity.
Qed.

Lemma lex_after_break_bounded n : forall s, (List.length s <= n)%nat ->
  forall m operand ts, lex m true operand s = Done (Normal ts) -> after_break ts.
Proof.
induction n as [|n IH]; intros s Hlen m operand ts.
- destruct s; [|simpl in Hlen; lia].
  destruct m; simpl; try discriminate; intros [= <-]; exact I.
- destruct s as [|c r].
  { destruct m; simpl; try discriminate; intros [= <-]; exact I. }
  simpl in Hlen.
  assert (Hr : forall m' op' ts', lex m' true op' r = Done (Normal ts') -> after_break ts')
    by (apply IH; lia).
  destruct m; cbn [lex orb].
  + (* between tokens *)
    destruct (isLineTerminator c); [apply Hr|].
    destruct (isWhiteSpace c); [apply Hr|].
    destruct (isDigit c).
    { destruct (after_digit [c] None r); [apply Hr | apply emit_after_break | discriminate]. }
    destruct (c =? 46).
    { destruct r as [|d r']; [discriminate|].
      destruct (isDigit d); [apply Hr | discriminate]. }
    destruct (isWordStart c).
    { destruct (after_word r); [apply Hr | | discriminate].
      destruct (keyword [c]); [apply emit_after_break | discriminate]. }
    destruct (c =? 40); [apply emit_after_break|].
    destruct (c =? 41); [apply emit_after_break|].
    destruct (c =? 43).
    { destruct r as [|[|p|p] r']; try apply emit_after_break.
      repeat (destruct p; try discriminate; try apply emit_after_break). }
    destruct (c =? 45).
    { destruct r as [|[|p|p] r']; try apply emit_after_break.
      repeat (destruct p; try discriminate; try apply emit_after_break). }
    destruct (c =? 42).
    { destruct r as [|[|p|p] r']; try apply emit_after_break.
      repeat (destruct p; try discriminate; try apply emit_after_break). }
    destruct (c =? 47); [|discriminate].
    assert (Hr' : forall r', (List.length r' < List.length r)%nat ->
              forall m' op' ts', lex m' true op' r' = Done (Normal ts') -> after_break ts')
      by (intros r' Hl; apply IH; lia).
    destruct r as [|[|p|p] r'];
      try (destruct operand; [apply emit_after_break | discriminate]).
    repeat (destruct p;
            try (destruct operand; [apply emit_after_break | discriminate])).
    * apply Hr.
    * apply Hr'. simpl. lia.
  + (* in a line comment *)
    destruct (isLineTerminator c); apply Hr.
  + (* in a block comment *)
    destruct (star && (c =? 47)); apply Hr.
  + (* in a number *)
    match goal with |- context [after_digit ?a ?b r] => destruct (after_digit a b r) end;
      [apply Hr | apply emit_after_break | discriminate].
  + (* in a word *)
    destruct (after_word r); [apply Hr | | discriminate].
    destruct (keyword (cs ++ [c])); [apply emit_after_break | discriminate].
Qed.

Lemma lex_after_break s m operand ts :
  lex m true operand s = Done (Normal ts) -> after_break ts.
Proof. apply (lex_after_break_bounded (List.length s)). lia. Qed.

Lemma after_break_ends ts : after_break ts -> statement_ends ts = true.
Proof. destruct ts; simpl; trivial. Qed.

Lemma new_Function_after_break room c s f :
  isLineTerminator c = true ->
  new_Function room (lit "return " ++ c :: s) = Done (Normal f) -> f = Returns None.
Proof.
intros Hc. unfold new_Function. rewrite tokens_return.
cbn [lex]. rewrite Hc.
destruct (lex Between true false s) as [[ts|e]|] eqn:L; cbn [emit]; try discriminate.
cbn [tok]. destruct (existsb is_return ts); [discriminate|].
destruct (room <? nesting ts)%nat; [discriminate|].
rewrite (after_break_ends _ (lex_after_break _ _ _ _ L)).
unfold after_return. destruct (statements _ _); try discriminate. now intros [= <-].
Qed.

Lemma safeEval_allowed room s :
  s <> [] -> Forall (fun c => expression_char c = true) s ->
  safeEval room (VString s) =
    match new_Function room (lit "return " ++ s) with
    | Done (Normal f) =>
        match call f with
        | Normal v => Done (Normal v)
        | Throw _ => Done (Throw (Error "Invalid mathematical expression"))
        end
    | Done (Throw _) => Done (Throw (Error "Invalid mathematical expression"))
    | Unsupported => Unsupported
    end.
Proof.
intros Hne Hc. rewrite safeEval_string. destruct s as [|c r]; [contradiction|].
replace (RegExp_test expression_chars (c :: r)) with true; [reflexivity|].
symmetry. apply test_expression. now split.
Qed.

Lemma reads_after_break c s ts :
  isLineTerminator c = true -> reads_as (c :: s) ts -> after_break ts.
Proof.
intros Hc Hr. unfold reads_as in Hr. rewrite tokens_return in Hr.
cbn [lex] in Hr. rewrite Hc in Hr.
destruct (lex Between true false s) as [[x|e]|] eqn:L; cbn [emit] in Hr; try discriminate.
injection Hr as <-. exact (lex_after_break _ _ _ _ L).
Qed.

Lemma statements_sum ts v : derives Sum ts v -> statements (List.length ts) ts = Parsed tt [].
Proof.
intros Hd. destruct (parse_expression_sum _ _ Hd) as [e [_ Hp]].
pose proof (derives_nonempty _ _ _ Hd) as Hn.
destruct ts as [|t r]; [simpl in Hn; lia|].
cbn [List.length statements]. rewrite Hp. cbn [statement_ends]. now destruct (List.length r).
Qed.

(** X4. A line terminator in front changes what a text means: [return]
    followed by a line break is a complete statement.  Whatever [safeEval]
    returns for a text that starts with a line terminator is [undefined],
    on every engine; and for such a text that goes on with a sum nested no
    deeper than the engine has room for, it does return [undefined], not
    the value of the sum. *)
Theorem safeEval_line_break_first (room : nat) (c : code_unit) (s : js_string) :
  isLineTerminator c = true ->
  (forall v, safeEval room (VString (c :: s)) = Done (Normal v) -> v = VUndefined)
  /\ (forall ts v,
        Forall (fun x => expression_char x = true) (c :: s) ->
        reads_as (c :: s) ts -> derives Sum ts v ->
        (nesting ts <= room)%nat ->
        safeEval room (VString (c :: s)) = Done (Normal VUndefined)).
Proof.
intros Hc. split.
- intros v. rewrite safeEval_string.
  destruct (RegExp_test expression_chars (c :: s)); [|discriminate].
  destruct (new_Function room (lit "return " ++ c :: s)) as [[f|e]|] eqn:F; try discriminate.
  apply (new_Function_after_break _ _ _ _ Hc) in F. subst f. cbn [call]. now intros [= <-].
- intros ts v Ha Hr Hd Hn. rewrite safeEval_allowed; [|discriminate|exact Ha].
  unfold new_Function. rewrite Hr. cbn [mk tok].
  rewrite (derives_no_return _ _ _ Hd), (room_enough _ _ Hn).
  rewrite (after_break_ends _ (reads_after_break _ _ _ Hc Hr)).
  unfold after_return. rewrite (statements_sum _ _ Hd). reflexivity.
Qed.

Lemma safeEval_line_break_first_witness :
  (forall v, safeEval 0 (VString (10 :: lit "2 + 3")) = Done (Normal v) -> v = VUndefined)
  /\ safeEval 0 (VString (10 :: lit "2 + 3")) = Done (Normal VUndefined).
Proof.
destruct (safeEval_line_break_first 0%nat 10 (lit "2 + 3")) as [H1 H2]; [reflexivity|].
split; [exact H1|].
apply (H2 [mk (TNum (of_Z 2)) true; mk TPlus false; mk (TNum (of_Z 3)) false]
          (num_add (of_Z 2) (of_Z 3))).
- repeat constructor.
- vm_compute. reflexivity.
- apply (d_add [mk (TNum (of_Z 2)) true] [mk (TNum (of_Z 3)) false]).
  + apply d_term, d_factor, d_literal.
  + apply d_factor, d_literal.
- vm_compute. lia.
Defined.

(** The same text with and without the line break in front. *)
Example safeEval_line_break_sample :
  safeEval 0 (VString (lit "2 + 3")) = Done (Normal (VNumber (of_Z 5)))
  /\ safeEval 0 (VString (10 :: lit "2 + 3")) = Done (Normal VUndefined).
Proof. split; vm_compute; reflexivity. Qed.

Local Open Scope nat_scope.

Lemma parse_multiplicative_nothing g :
  3 <= g -> parse_multiplicative g [] = Malformed.
Proof.
intros H. destruct g as [|[|[|g]]]; try lia. reflexivity.
Qed.

Lemma sum_then_operator ts v t :
  derives Sum ts v -> tok t = TPlus \/ tok t = TMinus ->
  parse_expression (ts ++ [t]) = Malformed.
Proof.
intros Hd Ht. pose proof (derives_parses _ _ _ Hd) as Hp. cbn [parses] in Hp.
destruct Hp as [e [k [He [Hk Hp]]]].
unfold parse_expression, enough. rewrite length_app. cbn [List.length].
destruct t as [t nl]. cbn [tok] in Ht.
rewrite Hp; [| lia | destruct Ht as [-> | ->]; reflexivity].
destruct (6 * S (List.length ts + 1) - k) as [|g] eqn:G; [lia|].
destruct Ht as [-> | ->].
- change {| tok := TPlus; nl_before := nl |} with (mk TPlus nl).
  rewrite additive_rest_plus, parse_multiplicative_nothing; [reflexivity | lia].
- change {| tok := TMinus; nl_before := nl |} with (mk TMinus nl).
  rewrite additive_rest_minus, parse_multiplicative_nothing; [reflexivity | lia].
Qed.

Lemma sum_then_close ts v nl :
  derives Sum ts v ->
  exists e, parse_expression (ts ++ [mk TRParen nl]) = Parsed e [mk TRParen nl].
Proof.
intros Hd. pose proof (derives_parses _ _ _ Hd) as Hp. cbn [parses] in Hp.
destruct Hp as [e [k [He [Hk Hp]]]]. exists e.
unfold parse_expression, enough. rewrite length_app. cbn [List.length].
rewrite Hp; [| lia | reflexivity].
destruct (6 * S (List.length ts + 1) - k) as [|g] eqn:G; [lia|].
now apply additive_rest_end.
Qed.

Lemma open_then_sum ts v nl :
  derives Sum ts v -> parse_expression (mk TLParen nl :: ts) = Malformed.
Proof.
intros Hd. pose proof (derives_parses _ _ _ Hd) as Hp. cbn [parses] in Hp.
destruct Hp as [e [k [He [Hk Hp]]]].
unfold parse_expression, enough. cbn [List.length].
replace (6 * S (S (List.length ts))) with (S (S (S (S (6 * List.length ts + 8))))) by lia.
rewrite parse_additive_S, parse_multiplicative_S, parse_unary_group.
specialize (Hp (6 * List.length ts + 8) []). rewrite app_nil_r in Hp.
rewrite Hp; [| lia | reflexivity].
destruct (6 * List.length ts + 8 - k) as [|g] eqn:G; [lia|].
rewrite additive_rest_end; [| reflexivity | exact I]. reflexivity.
Qed.

Lemma derives_starts lv ts v :
  derives lv ts v ->
  exists t r, ts = t :: r /\ (tok t = TLParen \/ exists n, tok t = TNum n).
Proof.
induction 1;
  repeat match goal with
         | H : exists _, _ |- _ => destruct H
         | H : _ /\ _ |- _ => destruct H
         end; subst; cbn [app]; eexists _, _; (split; [reflexivity|]);
  cbn [mk tok]; eauto.
Qed.

Lemma derives_not_closing lv ts v rest :
  derives lv ts v -> closing (ts ++ rest) = None.
Proof.
intros H. destruct (derives_starts _ _ _ H) as [[t nl] [r [-> Ht]]].
cbn [tok] in Ht. cbn [app closing].
destruct Ht as [-> | [n ->]]; reflexivity.
Qed.

Lemma call_rest_argument f callee nl r :
  closing r = None ->
  call_rest (S f) callee (mk TLParen nl :: r) =
    match parse_additive f r with
    | Parsed a r' =>
        match closing r' with
        | Some r'' => call_rest f (ECall callee (Some a)) r''
        | None => Malformed
        end
    | other => other
    end.
Proof.
intros H. cbn [call_rest mk tok]. rewrite H.
destruct (parse_additive f r) as [a r'| |]; try reflexivity.
Qed.

Lemma literal_then_group n ts v nl nl1 nl2 :
  derives Sum ts v ->
  exists e, eval e = Throw TypeError
    /\ parse_expression (mk (TNum n) nl :: mk TLParen nl1 :: ts ++ [mk TRParen nl2])
       = Parsed e [].
Proof.
intros Hd. pose proof (derives_parses _ _ _ Hd) as Hp. cbn [parses] in Hp.
destruct Hp as [e [k [He [Hk Hp]]]].
exists (ECall (ENum n) (Some e)). split; [simpl; now rewrite He|].
unfold parse_expression, enough. cbn [List.length]. rewrite length_app. cbn [List.length].
replace (6 * S (S (S (List.length ts + 1))))
  with (S (S (S (S (6 * List.length ts + 20))))) by lia.
rewrite parse_additive_S, parse_multiplicative_S.
cbn [parse_unary mk tok parse_primary].
rewrite call_rest_argument; [| now apply (derives_not_closing _ _ _ _ Hd)].
rewrite Hp; [| lia | reflexivity].
destruct (6 * List.length ts + 20 - k) as [|g] eqn:G; [lia|].
rewrite additive_rest_end; [| reflexivity | exact I].
cbn [closing mk tok].
replace (6 * List.length ts + 20) with (S (6 * List.length ts + 19)) by lia.
reflexivity.
Qed.

Lemma existsb_return_app ts t :
  existsb is_return ts = false -> is_return t = false ->
  existsb is_return (ts ++ [t]) = false.
Proof.
intros H1 H2. rewrite existsb_app, H1. simpl. now rewrite H2.
Qed.

Lemma unbalanced_no_return ts : unbalanced ts -> existsb is_return ts = false.
Proof.
destruct 1 as [ts v nl Hd | ts v nl Hd | ts v nl Hd | ts v nl Hd];
  pose proof (derives_no_return _ _ _ Hd) as Hn.
- now apply existsb_return_app.
- now apply existsb_return_app.
- now apply existsb_return_app.
- simpl. exact Hn.
Qed.

Lemma new_Function_unbalanced room s ts :
  reads_as s ts -> same_line ts -> unbalanced ts ->
  exists e, new_Function room (lit "return " ++ s) = Done (Throw e).
Proof.
intros Hr Hl Hu. unfold new_Function. rewrite Hr. cbn [mk tok].
rewrite (unbalanced_no_return _ Hu).
destruct (room <? nesting ts); [now exists RangeError|].
exists SyntaxError. rewrite (same_line_continues _ Hl).
destruct Hu as [ts v nl Hd | ts v nl Hd | ts v nl Hd | ts v nl Hd].
- rewrite (sum_then_operator _ _ _ Hd); [reflexivity | now left].
- rewrite (sum_then_operator _ _ _ Hd); [reflexivity | now right].
- destruct (sum_then_close _ _ nl Hd) as [e ->].
  destruct nl; reflexivity.
- now rewrite (open_then_sum _ _ _ Hd).
Qed.

Local Close Scope nat_scope.

Lemma reads_nonempty s ts : reads_as s ts -> same_line ts -> s <> [].
Proof.
intros Hr Hl ->. unfold reads_as in Hr. vm_compute in Hr.
injection Hr as <-. exact Hl.
Qed.

(** X5. A sum followed by a dangling [+] or [-], a sum with a closing
    parenthesis too many and a sum behind an opening parenthesis that is
    never closed all fail with EvaluationError, on every engine. *)
Theorem safeEval_unbalanced (room : nat) (s : js_string) (ts : list ltoken) :
  Forall (fun c => expression_char c = true) s ->
  reads_as s ts -> same_line ts -> unbalanced ts ->
  safeEval room (VString s) = Done (Throw (Error "Invalid mathematical expression")).
Proof.
intros Hc Hr Hl Hu.
rewrite (safeEval_allowed _ _ (reads_nonempty _ _ Hr Hl) Hc).
now destruct (new_Function_unbalanced room _ _ Hr Hl Hu) as [e ->].
Qed.

Lemma safeEval_unbalanced_witness :
  safeEval 8 (VString (lit "(2 + 3")) = Done (Throw (Error "Invalid mathematical expression")).
Proof.
apply (safeEval_unbalanced 8%nat (lit "(2 + 3")
         [mk TLParen false; mk (TNum (of_Z 2)) false; mk TPlus false; mk (TNum (of_Z 3)) false]).
- repeat constructor.
- vm_compute. reflexivity.
- reflexivity.
- apply (missing_close [mk (TNum (of_Z 2)) false; mk TPlus false; mk (TNum (of_Z 3)) false]
           (num_add (of_Z 2) (of_Z 3))).
  apply (d_add [mk (TNum (of_Z 2)) false] [mk (TNum (of_Z 3)) false]).
  + apply d_term, d_factor, d_literal.
  + apply d_factor, d_literal.
Defined.

Lemma juxtaposed_no_return ts : juxtaposed ts -> existsb is_return ts = false.
Proof.
destruct 1 as [n ts v nl nl1 nl2 Hd]. cbn [existsb is_return mk tok orb].
apply existsb_return_app; [now apply (derives_no_return _ _ _ Hd) | reflexivity].
Qed.

(** X6. Juxtaposition is no multiplication: a literal directly followed by
    a parenthesised sum is a call of a number, whose TypeError [safeEval]
    turns into an EvaluationError, on every engine. *)
Theorem safeEval_juxtaposition (room : nat) (s : js_string) (ts : list ltoken) :
  Forall (fun c => expression_char c = true) s ->
  reads_as s ts -> same_line ts -> juxtaposed ts ->
  safeEval room (VString s) = Done (Throw (Error "Invalid mathematical expression")).
Proof.
intros Hc Hr Hl Hj.
rewrite (safeEval_allowed _ _ (reads_nonempty _ _ Hr Hl) Hc).
unfold new_Function. rewrite Hr. cbn [mk tok].
rewrite (juxtaposed_no_return _ Hj).
destruct (room <? nesting ts)%nat; [reflexivity|].
rewrite (same_line_continues _ Hl).
destruct Hj as [n ts v nl nl1 nl2 Hd].
destruct (literal_then_group n _ _ nl nl1 nl2 Hd) as [e [He ->]].
cbn [statement_ends after_return statements List.length call]. now rewrite He.
Qed.

Lemma safeEval_juxtaposition_witness :
  safeEval 8 (VString (lit "2(3 + 4)")) = Done (Throw (Error "Invalid mathematical expression")).
Proof.
apply (safeEval_juxtaposition 8%nat (lit "2(3 + 4)")
         (mk (TNum (of_Z 2)) false :: mk TLParen false ::
          [mk (TNum (of_Z 3)) false; mk TPlus false; mk (TNum (of_Z 4)) false]
          ++ [mk TRParen false])).
- repeat constructor.
- vm_compute. reflexivity.
- reflexivity.
- apply (juxtaposed_sum (of_Z 2)
           [mk (TNum (of_Z 3)) false; mk TPlus false; mk (TNum (of_Z 4)) false]
           (num_add (of_Z 3) (of_Z 4))).
  apply (d_add [mk (TNum (of_Z 3)) false] [mk (TNum (of_Z 4)) false]).
  + apply d_term, d_factor, d_literal.
  + apply d_factor, d_literal.
Defined.

End EvaluatorMore.

(* ===================================================================== *)
(** * Further properties of [processData] *)
(* ===================================================================== *)

Section TransformerMore.

Lemma filter_all {A} (f : A -> bool) (l : list A) :
  (forall x, In x l -> f x = true) -> filter f l = l.
Proof.
induction l as [|x l IH]; intros H; simpl; [reflexivity|].
rewrite (H x (or_introl eq_refl)). f_equal. apply IH. intros y Hy. apply H. now right.
Qed.

Lemma after_call_timers cfg l w : timers_known w -> timers (after_call cfg l w) = timers w.
Proof.
intros H. unfold after_call. cbn [timers]. rewrite filter_app.
cbn [filter own_timer timer_id]. rewrite Nat.eqb_refl. cbn [negb]. rewrite app_nil_r.
apply filter_all. intros t Ht. apply negb_true_iff, Nat.eqb_neq. now apply H.
Qed.

(** X7. A call of [processData] leaves the timers as it found them, whatever
    its argument: the timer it sets is cleared on the success path and on
    the failure path alike, and no other timer is touched, as long as the
    identifiers of the waiting timers are ones [setTimeout] has given out. *)
Theorem processData_restores_timers (cfg : Config) (data : value) (w : world) :
  timers_known w -> timers (snd (processData cfg data w)) = timers w.
Proof.
intros H. destruct (not_array_or_array data) as [Hd | [l ->]].
- now rewrite (processData_other cfg data w Hd).
- rewrite processData_array. cbn [snd]. now apply after_call_timers.
Qed.

Lemma processData_restores_timers_witness :
  timers (snd (processData config (nums [1; 2; 3]) busy_world)) = timers busy_world
  /\ timers (snd (processData config (VArray [Some VNull]) busy_world)) = timers busy_world.
Proof.
split; apply processData_restores_timers;
  intros t [<- | []]; discriminate.
Defined.

Lemma run_jobs_idle n w : jobs w = [] -> run_jobs n w = w.
Proof.
intros H. destruct n; [reflexivity|]. simpl. unfold job_step. now rewrite H.
Qed.

(** X8. The outcome of [processData] depends on its argument alone: for
    each argument there is one outcome that the promise of every call takes,
    whatever the configured timeout, the speed of the engine, the clock and
    the timers waiting, and keeps along every run of the event loop. *)
Theorem processData_result_of_data (data : value) :
  exists o, forall cfg w, jobs w = [] ->
    exists p w1, processData cfg data w = (Normal p, w1)
      /\ outcome_of p (run_jobs 2 w1) = Some o
      /\ forall w', steps (run_jobs 2 w1) w' -> outcome_of p w' = Some o.
Proof.
destruct (not_array_or_array data) as [Hd | [l ->]].
- exists (Rejected (Error "Data must be an array")). intros cfg w Hq.
  eexists _, _. split; [apply (processData_other cfg data w Hd)|].
  rewrite run_jobs_idle by exact Hq.
  split; [apply outcome_after_other|].
  intros w' Hs. exact (outcome_steps _ _ _ _ Hs (outcome_after_other w)).
- exists (transform_outcome l). intros cfg w Hq.
  eexists _, _. split; [apply processData_array|].
  rewrite (run_two_jobs _ _ _ Hq).
  split; [apply delivered_outcome|].
  intros w' Hs. exact (outcome_steps _ _ _ _ Hs (delivered_outcome cfg l w)).
Qed.

Lemma processData_result_of_data_witness :
  exists o,
    outcome_of 0%nat
      (run_jobs 2 (snd (processData (with_timeout 0) (nums [1; 2; 3])
                          (boot (fun n => 1000 * Z.of_nat n))))) = Some o
    /\ outcome_of 0%nat
         (run_jobs 2 (snd (processData config (nums [1; 2; 3]) busy_world))) = Some o.
Proof.
destruct (processData_result_of_data (nums [1; 2; 3])) as [o H].
exists o. split.
- destruct (H (with_timeout 0) (boot (fun n => 1000 * Z.of_nat n)) eq_refl)
    as [p [w1 [E [Ho _]]]].
  rewrite E. cbn [snd]. vm_compute in E. injection E as <- _. exact Ho.
- destruct (H config busy_world eq_refl) as [p [w1 [E [Ho _]]]].
  rewrite E. cbn [snd]. vm_compute in E. injection E as <- _. exact Ho.
Defined.

Lemma transform_numbers ns :
  transform_outcome (numbers ns) = Fulfilled (VArray (numbers (map (option_map twice) ns))).
Proof.
unfold transform_outcome, numbers. rewrite Array_map_numbers. unfold numbers.
rewrite map_map. do 2 f_equal. apply map_ext. now intros [n|].
Qed.

Lemma delivered_older cfg l w p :
  (p < List.length (heap w))%nat ->
  outcome_of p (delivered cfg l w) = outcome_of p w.
Proof.
intros H. unfold outcome_of, lookup, delivered. cbn [heap set_jobs set_heap].
now rewrite nth_error_app1.
Qed.

Lemma delivered_heap cfg l w :
  List.length (heap (delivered cfg l w)) = S (S (List.length (heap w))).
Proof.
unfold delivered. cbn [heap set_jobs set_heap]. rewrite length_app. simpl. lia.
Qed.

(** X9. Calls compose: awaiting [processData] on an array of numbers and
    calling it again on the result gives a second promise, distinct from
    the first, fulfilled with every element multiplied by two twice, while
    the first promise keeps its value. *)
Theorem processData_twice (cfg : Config) (ns : list (option number)) (w : world) :
  jobs w = [] ->
  exists p1 w1 r1 p2 w3,
    processData cfg (VArray (numbers ns)) w = (Normal p1, w1)
    /\ outcome_of p1 (run_jobs 2 w1) = Some (Fulfilled (VArray r1))
    /\ processData cfg (VArray r1) (run_jobs 2 w1) = (Normal p2, w3)
    /\ p1 <> p2
    /\ outcome_of p2 (run_jobs 2 w3)
       = Some (Fulfilled (VArray (numbers (map (option_map (fun n => twice (twice n))) ns))))
    /\ outcome_of p1 (run_jobs 2 w3) = Some (Fulfilled (VArray r1)).
Proof.
intros Hq.
set (l1 := numbers ns). set (r1 := numbers (map (option_map twice) ns)).
set (w2 := delivered cfg l1 w).
assert (Hq2 : jobs w2 = []) by reflexivity.
exists (List.length (heap w)), (after_call cfg l1 w), r1,
  (List.length (heap w2)), (after_call cfg r1 w2).
rewrite (run_two_jobs _ _ _ Hq). fold w2.
rewrite (run_two_jobs _ _ _ Hq2).
split; [apply processData_array|].
split; [unfold w2; rewrite delivered_outcome; f_equal; apply transform_numbers|].
split; [apply processData_array|].
split; [unfold w2; rewrite delivered_heap; lia|].
split.
- rewrite delivered_outcome. unfold r1. rewrite transform_numbers.
  rewrite map_map. do 4 f_equal. apply map_ext. now intros [n|].
- rewrite delivered_older.
  + unfold w2. rewrite delivered_outcome. f_equal. apply transform_numbers.
  + unfold w2. rewrite delivered_heap. lia.
Qed.

Lemma processData_twice_witness :
  exists p1 w1 p2 w3,
    processData config (nums [1; 2; 3]) (boot (fun _ => 0)) = (Normal p1, w1)
    /\ outcome_of p1 (run_jobs 2 w1) = Some (Fulfilled (nums [2; 4; 6]))
    /\ processData config (nums [2; 4; 6]) (run_jobs 2 w1) = (Normal p2, w3)
    /\ outcome_of p2 (run_jobs 2 w3) = Some (Fulfilled (nums [4; 8; 12])).
Proof.
destruct (processData_twice config (map (fun z => Some (of_Z z)) [1; 2; 3])
            (boot (fun _ => 0)) eq_refl)
  as [p1 [w1 [r1 [p2 [w3 [H1 [H2 [H3 [_ [H4 _]]]]]]]]]].
exists p1, w1, p2, w3.
assert (E1 : r1 = map (fun z => Some (VNumber (of_Z z))) [2; 4; 6]).
{ vm_compute in H1. injection H1 as <- <-. vm_compute in H2. now injection H2 as <-. }
subst r1. repeat split; assumption.
Defined.

End TransformerMore.

(* ===================================================================== *)
(** * The runs of [main] *)
(* ===================================================================== *)

Section DriverRuns.

Lemma processInput_throws_Error cfg v e :
  processInput cfg v = Throw e -> exists m, e = Error m.
Proof.
unfold processInput.
destruct (negb (truthy v) || negb (typeof v =? "string")%string);
  [intros [= <-]; now eexists|].
destruct (str_length (chars v) >? maxInputLength cfg); [intros [= <-]; now eexists|].
destruct (negb (RegExp_test (allowedChars cfg) (chars v)));
  [intros [= <-]; now eexists | discriminate].
Qed.

Lemma await_delivered cfg l w fuel :
  jobs w = [] -> (2 <= fuel)%nat ->
  await fuel (List.length (heap w)) (after_call cfg l w)
  = (Some (transform_outcome l), delivered cfg l w).
Proof.
intros Hq Hf. destruct fuel as [|[|n]]; try lia.
cbn [await]. rewrite after_call_outcome, (first_job _ _ _ Hq).
rewrite in_flight_outcome, second_job.
destruct n; cbn [await]; now rewrite delivered_outcome.
Qed.

Lemma sample_expression_value room :
  safeEval room (VString (lit "2 + 3 * 4")) = Done (Normal (VNumber (of_Z 14))).
Proof.
rewrite safeEval_room;
  replace (depth_of (lit "2 + 3 * 4")) with 0%nat by (vm_compute; reflexivity);
  [vm_compute; reflexivity | lia].
Qed.

Lemma sample_data_outcome :
  transform_outcome (map (fun z => Some (VNumber (of_Z z))) [1; 2; 3; 4; 5])
  = Fulfilled (nums [2; 4; 6; 8; 10]).
Proof. vm_compute. reflexivity. Qed.

(** X10. For every configuration and on every engine, a run of [main]
    started with no micro-task waiting goes one of two ways.  When the configured sanitizer
    accepts the sample text, the five lines are logged in order, with the
    sanitized text, 14 and the doubled sample array, and the process is not
    exited.  When it refuses the sample, the start line is followed by the
    error line with the message of the failure and by [process.exit(1)],
    and nothing else is logged. *)
Theorem main_runs (cfg : Config) (room fuel : nat) (w : world) :
  jobs w = [] -> (2 <= fuel)%nat ->
  match processInput cfg (VString (lit "Hello World")) with
  | Normal processed =>
      exists w', main cfg room fuel w = Done (success_lines processed, w')
  | Throw e =>
      exists m w', e = Error m /\ main cfg room fuel w = Done (failure_lines m, w')
  end.
Proof.
intros Hq Hf. unfold main. cbn [new_promise].
destruct (processInput cfg (VString (lit "Hello World"))) as [processed|e] eqn:E.
- rewrite sample_expression_value.
  change (nums [1; 2; 3; 4; 5])
    with (VArray (map (fun z => Some (VNumber (of_Z z))) [1; 2; 3; 4; 5])).
  rewrite processData_array.
  rewrite await_delivered; [| exact Hq | exact Hf].
  rewrite sample_data_outcome. eexists. reflexivity.
- destruct (processInput_throws_Error _ _ _ E) as [m ->].
  exists m. eexists. split; reflexivity.
Qed.

Lemma main_runs_witness :
  (exists w', main config 0 2 (boot (fun _ => 0))
              = Done (success_lines (VString (lit "HELLO WORLD")), w'))
  /\ (exists w', main {| maxInputLength := 5; allowedChars := allowedChars config;
                         timeout := 5000 |} 0 2 (boot (fun _ => 0))
                 = Done (failure_lines "Input too long", w')).
Proof.
split.
- pose proof (main_runs config 0 2 (boot (fun _ => 0)) eq_refl (le_n 2)) as H.
  exact H.
- pose proof (main_runs {| maxInputLength := 5; allowedChars := allowedChars config;
                           timeout := 5000 |} 0 2 (boot (fun _ => 0)) eq_refl (le_n 2)) as H.
  cbv beta iota in H. 
  destruct H as [m [w' [Hm H]]]. injection Hm as <-. now exists w'.
Defined.

End DriverRuns.

(* ===================================================================== *)
(** * Literals and division in [safeEval] *)
(* ===================================================================== *)

Section Literals.

Lemma digit_facts c :
  isDigit c = true ->
  isLineTerminator c = false /\ isWhiteSpace c = false /\ (c =? 46) = false
  /\ expression_char c = true.
Proof.
unfold isDigit, isLineTerminator, isWhiteSpace, expression_char, isDigit.
intros H. to_prop. repeat split; lia.
Qed.

Lemma lex_more_digits nl operand r : forall acc,
  Forall (fun c => isDigit c = true) r -> r <> [] ->
  lex (InNumber acc None) nl operand r
  = Done (Normal [mk (TNum (literal_value (acc ++ r) None)) nl]).
Proof.
induction r as [|d r IH]; intros acc Hd Hne; [contradiction|].
inversion Hd as [|? ? Hd1 Hd2]; subst.
destruct (digit_facts _ Hd1) as [_ [_ [H46 _]]].
cbn [lex]. rewrite H46.
destruct r as [|d' r'].
- cbn [after_digit lex emit]. reflexivity.
- inversion Hd2 as [|? ? Hd1' _]; subst.
  cbn [after_digit]. rewrite Hd1'.
  rewrite IH; [| exact Hd2 | discriminate].
  now rewrite <- app_assoc.
Qed.

Lemma lex_digits nl operand ds :
  digits ds ->
  lex Between nl operand ds = Done (Normal [mk (TNum (literal_value ds None)) nl]).
Proof.
intros [Hne Hd]. destruct ds as [|c r]; [contradiction|].
inversion Hd as [|? ? Hc Hr]; subst.
destruct (digit_facts _ Hc) as [Hlt [Hws _]].
cbn [lex]. rewrite Hlt, Hws, Hc.
destruct r as [|d' r'].
- reflexivity.
- inversion Hr as [|? ? Hd' _]; subst.
  cbn [after_digit]. rewrite Hd'.
  apply (lex_more_digits nl operand (d' :: r') [c]); [exact Hr | discriminate].
Qed.

Lemma digits_allowed ds : digits ds -> Forall (fun c => expression_char c = true) ds.
Proof.
intros [_ H]. eapply Forall_impl; [|exact H]. intros c Hc.
now destruct (digit_facts _ Hc) as [_ [_ [_ E]]].
Qed.

Lemma digits_read ds : digits ds -> reads_as ds [mk (TNum (literal_value ds None)) false].
Proof.
intros H. unfold reads_as. now rewrite tokens_return, (lex_digits _ _ _ H).
Qed.

Lemma literal_radix ds :
  literal_value ds None = of_Z (digits_value (radix ds) ds).
Proof. unfold literal_value, radix. now destruct (legacy_octal ds). Qed.

Lemma safeEval_sum room s ts v :
  Forall (fun c => expression_char c = true) s ->
  reads_as s ts -> same_line ts -> derives Sum ts v -> (nesting ts <= room)%nat ->
  safeEval room (VString s) = Done (Normal (VNumber v)).
Proof.
intros Hc Hr Hl Hd Hn.
rewrite (safeEval_allowed _ _ (reads_nonempty _ _ Hr Hl) Hc).
destruct (new_Function_sum _ _ _ _ Hr Hl Hd Hn) as [e [He ->]].
cbn [call]. now rewrite He.
Qed.

(** X11. A text made of decimal digits only evaluates to the number nearest
    to the integer it denotes, read in base 8 when it has a leading [0]
    followed by octal digits only, and in base 10 otherwise, on every
    engine. *)
Theorem safeEval_integer_literal (room : nat) (ds : js_string) :
  digits ds ->
  safeEval room (VString ds) = Done (Normal (VNumber (of_Z (digits_value (radix ds) ds)))).
Proof.
intros H. rewrite <- literal_radix.
apply (safeEval_sum room ds [mk (TNum (literal_value ds None)) false]).
- now apply digits_allowed.
- now apply digits_read.
- reflexivity.
- apply d_term, d_factor, d_literal.
- apply Nat.le_0_l.
Qed.

Lemma safeEval_integer_literal_witness :
  safeEval 0 (VString (lit "0100")) = Done (Normal (VNumber (of_Z 64)))
  /\ safeEval 0 (VString (lit "100")) = Done (Normal (VNumber (of_Z 100)))
  /\ safeEval 0 (VString (lit "0180")) = Done (Normal (VNumber (of_Z 180))).
Proof.
split; [|split].
- apply (safeEval_integer_literal 0%nat (lit "0100")). split; [discriminate | repeat constructor].
- apply (safeEval_integer_literal 0%nat (lit "100")). split; [discriminate | repeat constructor].
- apply (safeEval_integer_literal 0%nat (lit "0180")). split; [discriminate | repeat constructor].
Defined.

Lemma quotient_by_zero n s : not_finite (num_div n (S754_zero s)) = true.
Proof. destruct n as [s'|s'| |s' m e]; reflexivity. Qed.

(** X12. Division by zero is no failure: a literal divided by a zero
    evaluates to the quotient of the two numbers, which is an infinity or
    NaN, on every engine. *)
Theorem safeEval_division_by_zero (room : nat) (s : js_string) (n : number)
        (nl1 nl2 z : bool) :
  Forall (fun c => expression_char c = true) s ->
  reads_as s [mk (TNum n) false; mk TSlash nl1; mk (TNum (S754_zero z)) nl2] ->
  safeEval room (VString s) = Done (Normal (VNumber (num_div n (S754_zero z))))
  /\ not_finite (num_div n (S754_zero z)) = true.
Proof.
intros Hc Hr. split; [|apply quotient_by_zero].
apply (safeEval_sum room s _ _ Hc Hr); [reflexivity| |apply Nat.le_0_l].
apply d_term. apply (d_div [mk (TNum n) false] [mk (TNum (S754_zero z)) nl2]).
- apply d_factor, d_literal.
- apply d_literal.
Qed.

Lemma safeEval_division_by_zero_witness :
  safeEval 0 (VString (lit "7 / 0")) = Done (Normal (VNumber (S754_infinity false)))
  /\ not_finite (S754_infinity false) = true.
Proof.
apply (safeEval_division_by_zero 0%nat (lit "7 / 0") (of_Z 7) false false false).
- repeat constructor.
- vm_compute. reflexivity.
Defined.

End Literals.
